(** * The batching write transaction of the backend (mvcc/backend/batch_tx.go)

    A shallow embedding of [batchTx] and of the operations of the [BatchTx]
    interface, over a model of the transactional store the file drives
    through [bolt.Tx], [bolt.Bucket] and [bolt.Cursor].

    Go values are embedded as follows.
    - [[]byte] is [list byte]; a nil slice and an empty one are both [[]]
      (the code only ever tests [len(endKey) == 0] on a slice argument);
      a possibly-nil result of a lookup is an [option].
    - [int64] is [Z] with the 64-bit two's complement wrap-around written
      out ([wrap64]); so is [int], taken at its 64-bit width.
    - A pointer that is owned by exactly one object ([t.tx], [t.backend],
      [backend.db]) is the pointed-to record itself, stored in the owner; a
      nil pointer is [None].
    - A call that ends the process ([plog.Fatalf], a runtime panic) or that
      cannot return in a sequential run (acquiring a held lock) is an
      outcome of the [result] type, next to normal return. *)

From Stdlib Require Import ZArith List Bool Lia String.
From Stdlib Require Import Strings.Byte.
From Stdlib Require Import Sorting.Sorted.
Import ListNotations.

Local Open Scope Z_scope.

(** ** Machine integers *)

Definition max_int64 : Z := 2 ^ 63 - 1.
Definition min_int64 : Z := - 2 ^ 63.

(** The value of a 64-bit signed integer expression whose mathematical
    value is [z]. *)
Definition wrap64 (z : Z) : Z := (z + 2 ^ 63) mod 2 ^ 64 - 2 ^ 63.

(** ** Byte slices and [bytes.Compare] *)

Definition bytes : Type := list byte.

Fixpoint bytes_cmp (a b : bytes) : comparison :=
  match a, b with
  | [], [] => Eq
  | [], _ :: _ => Lt
  | _ :: _, [] => Gt
  | x :: a', y :: b' =>
      match N.compare (Byte.to_N x) (Byte.to_N y) with
      | Eq => bytes_cmp a' b'
      | c => c
      end
  end.

(** [bytes.Compare(a, b)]: -1, 0 or 1. *)
Definition bytes_Compare (a b : bytes) : Z :=
  match bytes_cmp a b with
  | Lt => -1
  | Eq => 0
  | Gt => 1
  end.

Definition bytes_eqb (a b : bytes) : bool :=
  match bytes_cmp a b with Eq => true | _ => false end.

Definition bytes_ltb (a b : bytes) : bool := bytes_Compare a b <? 0.

Definition bytes_lt (a b : bytes) : Prop := bytes_cmp a b = Lt.
Definition bytes_le (a b : bytes) : Prop := bytes_cmp a b <> Gt.

(** ** Outcomes of a call *)

(** Go's [error] values that occur here: the store's sentinel errors and
    whatever error value a caller's visitor makes up. *)
Inductive error : Type :=
| ErrBucketExists
| ErrBucketNameRequired
| ErrKeyRequired
| ErrTxClosed
| ErrDatabaseNotOpen
| ErrFlush
| errorString (msg : string).

Definition error_eqb (a b : error) : bool :=
  match a, b with
  | ErrBucketExists, ErrBucketExists => true
  | ErrBucketNameRequired, ErrBucketNameRequired => true
  | ErrKeyRequired, ErrKeyRequired => true
  | ErrTxClosed, ErrTxClosed => true
  | ErrDatabaseNotOpen, ErrDatabaseNotOpen => true
  | ErrFlush, ErrFlush => true
  | errorString m, errorString n => String.eqb m n
  | _, _ => false
  end.

(** The [plog.Fatalf] calls of the file, by their format strings. *)
Inductive fatal : Type :=
| cannot_create_bucket (err : error)      (* line 55 *)
| bucket_does_not_exist                   (* lines 73, 90, 117 *)
| cannot_put_key (err : error)            (* line 81 *)
| cannot_delete_key (err : error)         (* line 121 *)
| cannot_commit_tx (err : error)          (* line 176 *)
| cannot_begin_tx (err : error).          (* line 189 *)

(** Runtime failures that are not [plog.Fatalf]. *)
Inductive panic : Type :=
| nil_dereference            (* a method of [*bolt.Tx] called through nil *)
| tx_closed_assertion        (* the store refuses a lookup on a closed handle *)
| unlock_of_unlocked_mutex.

Inductive result (A : Type) : Type :=
| Done (a : A)               (* the call returns *)
| Fatal (f : fatal)          (* the process is terminated by plog.Fatalf *)
| Crash (p : panic)          (* the process is terminated by the runtime *)
| Blocked.                   (* the call waits for a lock that is held *)

Arguments Done {A} a.
Arguments Fatal {A} f.
Arguments Crash {A} p.
Arguments Blocked {A}.

Definition bind {A B : Type} (r : result A) (k : A -> result B) : result B :=
  match r with
  | Done a => k a
  | Fatal f => Fatal f
  | Crash p => Crash p
  | Blocked => Blocked
  end.

Notation "x <- r ;; k" := (bind r (fun x => k))
  (at level 61, r at next level, right associativity).

Definition returns {A : Type} (r : result A) : bool :=
  match r with Done _ => true | _ => false end.

(** ** The transactional store *)

Module bolt.

(** Modelled from the spec: the store's ordered key spaces (bbolt, imported
    at line 23, is not part of the sources).  Section 6 asks for named
    ordered buckets with point lookup, insert/overwrite, delete where
    absence is not an error, and a cursor yielding keys in ascending
    order; a key space is a list of pairs kept in ascending key order. *)
Definition table (V : Type) : Type := list (bytes * V).

Fixpoint lookup {V : Type} (k : bytes) (l : table V) : option V :=
  match l with
  | [] => None
  | (k', v) :: l' => if bytes_eqb k k' then Some v else lookup k l'
  end.

Fixpoint insert {V : Type} (k : bytes) (v : V) (l : table V) : table V :=
  match l with
  | [] => [(k, v)]
  | (k', v') :: l' =>
      match bytes_cmp k k' with
      | Lt => (k, v) :: l
      | Eq => (k, v) :: l'
      | Gt => (k', v') :: insert k v l'
      end
  end.

Fixpoint remove {V : Type} (k : bytes) (l : table V) : table V :=
  match l with
  | [] => []
  | (k', v') :: l' =>
      match bytes_cmp k k' with
      | Lt => l
      | Eq => l'
      | Gt => (k', v') :: remove k l'
      end
  end.

(** The pairs from the first key that is not below [k] on. *)
Fixpoint seek {V : Type} (k : bytes) (l : table V) : table V :=
  match l with
  | [] => []
  | (k', v') :: l' => if bytes_ltb k' k then seek k l' else l
  end.

Fixpoint ascendingb (ks : list bytes) : bool :=
  match ks with
  | [] => true
  | k :: ks' =>
      match ks' with
      | [] => true
      | k' :: _ => bytes_ltb k k' && ascendingb ks'
      end
  end.

Definition keys_of {V : Type} (l : table V) : list bytes := map fst l.

(** The store's own invariant on a key space. *)
Definition ordered {V : Type} (l : table V) : Prop :=
  ascendingb (keys_of l) = true.

(** Percentages stand for the [float64] fill ratios: 50 is the store's
    default 0.5, 90 is the 0.9 of line 78. *)
Record Bucket : Type := {
  pairs : table bytes;
  FillPercent : Z
}.

Definition DefaultFillPercent : Z := 50.

Definition new_bucket : Bucket :=
  {| pairs := []; FillPercent := DefaultFillPercent |}.

Definition MaxKeySize : Z := 32768.
Definition MaxValueSize : Z := 2 ^ 31 - 2.

Definition len (b : bytes) : Z := Z.of_nat (List.length b).

(** Modelled from the spec: [*bolt.Tx], the handle of one write
    transaction: its identity, whether it is still open, the size of the
    store as this transaction sees it, and its working copy of the
    buckets. *)
Record Tx : Type := {
  tx_id : Z;
  tx_open : bool;
  tx_size : Z;
  tx_root : table Bucket
}.

(** How the store's next durable flush will go: it fails, or it succeeds
    and leaves the file with the given size and number of free pages. *)
Inductive flush : Type :=
| FlushFails
| FlushLeaves (size freePageN : Z).

(** Modelled from the spec: [*bolt.DB], the store handle owned by the
    backend.  [db_rwlock] is the store's single-writer lock, held while a
    write transaction is open; [db_flushes] counts the durable flushes
    performed so far; [db_script] is the environment's part: the outcomes
    of the flushes to come (an empty script lets every flush succeed and
    leave the statistics as they are). *)
Record DB : Type := {
  db_opened : bool;
  db_rwlock : bool;
  db_root : table Bucket;
  db_txid : Z;
  db_size : Z;
  db_FreePageN : Z;
  db_PageSize : Z;
  db_flushes : Z;
  db_script : list flush
}.

Definition close (h : Tx) : Tx :=
  {| tx_id := tx_id h; tx_open := false; tx_size := tx_size h;
     tx_root := tx_root h |}.

Definition with_root (h : Tx) (r : table Bucket) : Tx :=
  {| tx_id := tx_id h; tx_open := tx_open h; tx_size := tx_size h;
     tx_root := r |}.

(** Modelled from the spec: create-bucket(name), which distinguishes
    "already exists" from other errors; the other errors are those of a
    closed handle and of an empty name.  Returns the handle as the call
    leaves it and the error, if any. *)
Definition Tx_CreateBucket (h : Tx) (name : bytes) : Tx * option error :=
  if negb (tx_open h) then (h, Some ErrTxClosed)
  else match name with
       | [] => (h, Some ErrBucketNameRequired)
       | _ :: _ =>
           match lookup name (tx_root h) with
           | Some _ => (h, Some ErrBucketExists)
           | None => (with_root h (insert name new_bucket (tx_root h)), None)
           end
       end.

(** Modelled from the spec: the bucket lookup of a handle; nil for a
    bucket that does not exist.  No operation is valid on a handle that
    was committed: the store stops the process there. *)
Definition Tx_Bucket (h : Tx) (name : bytes) : result (option Bucket) :=
  if tx_open h then Done (lookup name (tx_root h))
  else Crash tx_closed_assertion.

(** The write-back of a bucket reached through [Tx_Bucket]: in the source
    the bucket is a pointer into the handle, so a change of the bucket is
    a change of the handle. *)
Definition Tx_store (h : Tx) (name : bytes) (b : Bucket) : Tx :=
  with_root h (insert name b (tx_root h)).

Definition set_FillPercent (b : Bucket) (p : Z) : Bucket :=
  {| pairs := pairs b; FillPercent := p |}.

Definition ErrKeyTooLarge : error := errorString "key too large".
Definition ErrValueTooLarge : error := errorString "value too large".

(** Modelled from the spec: put(bucket, key, value): insert or
    overwrite.  The write errors are those of an empty key and of a key or
    value above the store's size limits. *)
Definition Bucket_Put (b : Bucket) (key value : bytes)
  : Bucket * option error :=
  match key with
  | [] => (b, Some ErrKeyRequired)
  | _ :: _ =>
      if MaxKeySize <? len key then (b, Some ErrKeyTooLarge)
      else if MaxValueSize <? len value then (b, Some ErrValueTooLarge)
      else ({| pairs := insert key value (pairs b);
               FillPercent := FillPercent b |}, None)
  end.

(** Modelled from the spec: delete(bucket, key): remove; absence is not an
    error. *)
Definition Bucket_Delete (b : Bucket) (key : bytes) : Bucket * option error :=
  ({| pairs := remove key (pairs b); FillPercent := FillPercent b |}, None).

(** Modelled from the spec: get(bucket, key): point lookup.  The result is
    nil exactly when the key is absent: a stored value, also an empty one,
    comes back non-nil. *)
Definition Bucket_Get (b : Bucket) (key : bytes) : option bytes :=
  lookup key (pairs b).

(** Modelled from the spec: cursor(bucket) with seek(key) and next(),
    yielding keys in ascending order.  A cursor is the list of the pairs
    from its position on: its head is the pair the cursor is at (nil key
    at the end), [Cursor_Next] of [_ :: rest] is [rest]. *)
Definition Cursor : Type := table bytes.

Definition Cursor_Seek (b : Bucket) (key : bytes) : Cursor :=
  seek key (pairs b).

(** Modelled from the spec: for-each(bucket, visitor): full ordered scan
    with early abort on visitor error.  The visitor is a closure; what it
    does to the variables it captured is its state [S]. *)
Fixpoint for_each {S : Type} (l : table bytes)
  (fn : bytes -> bytes -> S -> S * option error) (s : S) : S * option error :=
  match l with
  | [] => (s, None)
  | (k, v) :: l' =>
      match fn k v s with
      | (s', Some err) => (s', Some err)
      | (s', None) => for_each l' fn s'
      end
  end.

Definition Bucket_ForEach {S : Type} (b : Bucket)
  (fn : bytes -> bytes -> S -> S * option error) (s : S) : S * option error :=
  for_each (pairs b) fn s.

(** A new transaction sees fresh bucket objects, with the default fill
    ratio. *)
Definition fresh_root (r : table Bucket) : table Bucket :=
  map (fun nb => (fst nb, set_FillPercent (snd nb) DefaultFillPercent)) r.

Definition set_rwlock (d : DB) (held : bool) : DB :=
  {| db_opened := db_opened d; db_rwlock := held; db_root := db_root d;
     db_txid := db_txid d; db_size := db_size d;
     db_FreePageN := db_FreePageN d; db_PageSize := db_PageSize d;
     db_flushes := db_flushes d; db_script := db_script d |}.

(** Modelled from the spec: begin(writable) with writable = true, the only
    mode the file uses (line 187): open a transaction handle.  The store
    admits one writer at a time. *)
Definition DB_Begin (d : DB) : result (DB * (Tx + error)) :=
  if db_rwlock d then Blocked
  else if negb (db_opened d) then Done (d, inr ErrDatabaseNotOpen)
  else Done (set_rwlock d true,
             inl {| tx_id := db_txid d + 1; tx_open := true;
                    tx_size := db_size d;
                    tx_root := fresh_root (db_root d) |}).

Definition Tx_Size (h : Tx) : Z := tx_size h.

(** The store after a flush of [h] that succeeded and left the file with
    the given statistics. *)
Definition flushed (d : DB) (h : Tx) (sz fr : Z) (s : list flush) : DB :=
  {| db_opened := db_opened d; db_rwlock := false; db_root := tx_root h;
     db_txid := tx_id h; db_size := sz; db_FreePageN := fr;
     db_PageSize := db_PageSize d; db_flushes := db_flushes d + 1;
     db_script := s |}.

Definition rolled_back (d : DB) (s : list flush) : DB :=
  {| db_opened := db_opened d; db_rwlock := false; db_root := db_root d;
     db_txid := db_txid d; db_size := db_size d;
     db_FreePageN := db_FreePageN d; db_PageSize := db_PageSize d;
     db_flushes := db_flushes d; db_script := s |}.

(** Modelled from the spec: commit(handle): durable flush; reports success
    or failure.  Either way the handle is closed afterwards. *)
Definition Tx_Commit (h : Tx) (d : DB) : Tx * DB * option error :=
  if negb (tx_open h) then (h, d, Some ErrTxClosed)
  else match db_script d with
       | [] =>
           (close h, flushed d h (db_size d) (db_FreePageN d) [], None)
       | FlushFails :: s => (close h, rolled_back d s, Some ErrFlush)
       | FlushLeaves sz fr :: s => (close h, flushed d h sz fr s, None)
       end.

End bolt.

(** ** The backend fields the batch transaction reads and writes *)

(** The part of the [backend] struct that batch_tx.go uses: the store
    handle, the commit threshold and the three published metrics.
    [backend.mu] is only taken in shared mode, around [db.Begin], and
    released on return; its exclusive holders are outside this file. *)
Record Backend : Type := {
  db : bolt.DB;
  batchLimit : Z;
  commits : Z;
  size : Z;
  sizeInUse : Z
}.

(** [batchTx] (lines 39-44); [locked] is the state of the embedded
    [sync.Mutex]. *)
Record batchTx : Type := {
  locked : bool;
  tx : option bolt.Tx;
  backend : Backend;
  pending : Z
}.

Definition set_locked (t : batchTx) (l : bool) : batchTx :=
  {| locked := l; tx := tx t; backend := backend t; pending := pending t |}.

Definition set_tx (t : batchTx) (h : option bolt.Tx) : batchTx :=
  {| locked := locked t; tx := h; backend := backend t; pending := pending t |}.

Definition set_backend (t : batchTx) (b : Backend) : batchTx :=
  {| locked := locked t; tx := tx t; backend := b; pending := pending t |}.

Definition set_pending (t : batchTx) (p : Z) : batchTx :=
  {| locked := locked t; tx := tx t; backend := backend t; pending := p |}.

Definition set_db (b : Backend) (d : bolt.DB) : Backend :=
  {| db := d; batchLimit := batchLimit b; commits := commits b;
     size := size b; sizeInUse := sizeInUse b |}.

Definition set_commits (b : Backend) (n : Z) : Backend :=
  {| db := db b; batchLimit := batchLimit b; commits := n;
     size := size b; sizeInUse := sizeInUse b |}.

Definition set_sizes (b : Backend) (sz inuse : Z) : Backend :=
  {| db := db b; batchLimit := batchLimit b; commits := commits b;
     size := sz; sizeInUse := inuse |}.

(** [t.pending++] *)
Definition incr_pending (t : batchTx) : batchTx :=
  set_pending t (wrap64 (pending t + 1)).

(** ** The operations *)

(** [sync.Mutex.Lock] and [sync.Mutex.Unlock] on the embedded mutex. *)
Definition Lock (t : batchTx) : result batchTx :=
  if locked t then Blocked else Done (set_locked t true).

Definition Mutex_Unlock (t : batchTx) : result batchTx :=
  if locked t then Done (set_locked t false)
  else Crash unlock_of_unlocked_mutex.

(** Lines 52-58. *)
Definition UnsafeCreateBucket (name : bytes) (t : batchTx) : result batchTx :=
  match tx t with
  | None => Crash nil_dereference
  | Some h =>
      let (h', err) := bolt.Tx_CreateBucket h name in
      let t := set_tx t (Some h') in
      match err with
      | Some e =>
          if negb (error_eqb e ErrBucketExists)
          then Fatal (cannot_create_bucket e)
          else Done (incr_pending t)
      | None => Done (incr_pending t)
      end
  end.

(** Lines 70-84. *)
Definition unsafePut (bucketName key value : bytes) (seq : bool) (t : batchTx)
  : result batchTx :=
  match tx t with
  | None => Crash nil_dereference
  | Some h =>
      bucket <- bolt.Tx_Bucket h bucketName ;;
      match bucket with
      | None => Fatal bucket_does_not_exist
      | Some bucket =>
          let bucket :=
            if seq then bolt.set_FillPercent bucket 90 else bucket in
          let (bucket, err) := bolt.Bucket_Put bucket key value in
          let t := set_tx t (Some (bolt.Tx_store h bucketName bucket)) in
          match err with
          | Some e => Fatal (cannot_put_key e)
          | None => Done (incr_pending t)
          end
      end
  end.

(** Lines 61-63. *)
Definition UnsafePut (bucketName key value : bytes) (t : batchTx)
  : result batchTx :=
  unsafePut bucketName key value false t.

(** Lines 66-68. *)
Definition UnsafeSeqPut (bucketName key value : bytes) (t : batchTx)
  : result batchTx :=
  unsafePut bucketName key value true t.

(** The loop of lines 102-108.  [c] is the cursor; [ck != nil] is [c]
    having a head; the loop's post statement [c.Next()] moves to [next]. *)
Fixpoint range_loop (c : bolt.Cursor) (endKey : bytes) (limit : Z)
  (keys vs : list bytes) : list bytes * list bytes :=
  match c with
  | [] => (keys, vs)
  | (ck, cv) :: next =>
      if bytes_Compare ck endKey <? 0 then
        let vs := vs ++ [cv] in
        let keys := keys ++ [ck] in
        if (limit >? 0) && (limit =? Z.of_nat (List.length keys))
        then (keys, vs)
        else range_loop next endKey limit keys vs
      else (keys, vs)
  end.

(** Lines 87-111.  The call reads [t] and writes nothing. *)
Definition UnsafeRange (bucketName key endKey : bytes) (limit : Z)
  (t : batchTx) : result (list bytes * list bytes) :=
  match tx t with
  | None => Crash nil_dereference
  | Some h =>
      bucket <- bolt.Tx_Bucket h bucketName ;;
      match bucket with
      | None => Fatal bucket_does_not_exist
      | Some bucket =>
          if bolt.len endKey =? 0 then
            match bolt.Bucket_Get bucket key with
            | None => Done ([], [])
            | Some v => Done ([] ++ [key], [] ++ [v])
            end
          else
            Done (range_loop (bolt.Cursor_Seek bucket key) endKey limit [] [])
      end
  end.

(** Lines 114-124. *)
Definition UnsafeDelete (bucketName key : bytes) (t : batchTx)
  : result batchTx :=
  match tx t with
  | None => Crash nil_dereference
  | Some h =>
      bucket <- bolt.Tx_Bucket h bucketName ;;
      match bucket with
      | None => Fatal bucket_does_not_exist
      | Some bucket =>
          let (bucket, err) := bolt.Bucket_Delete bucket key in
          let t := set_tx t (Some (bolt.Tx_store h bucketName bucket)) in
          match err with
          | Some e => Fatal (cannot_delete_key e)
          | None => Done (incr_pending t)
          end
      end
  end.

(** Lines 127-134.  The call reads [t] and writes nothing; it returns the
    visitor's state and the error. *)
Definition UnsafeForEach {S : Type} (bucketName : bytes)
  (visitor : bytes -> bytes -> S -> S * option error) (t : batchTx) (s : S)
  : result (S * option error) :=
  match tx t with
  | None => Crash nil_dereference
  | Some h =>
      b <- bolt.Tx_Bucket h bucketName ;;
      match b with
      | None => Done (s, None)
      | Some b => Done (bolt.Bucket_ForEach b visitor s)
      end
  end.

(** Lines 180-195 of [commit]: unless stopping, begin a new transaction
    and publish the size metrics. *)
Definition begin_new_tx (stop : bool) (t : batchTx) : result batchTx :=
  if stop then Done t
  else
    r <- bolt.DB_Begin (db (backend t)) ;;
    let (d, res) := r in
    let t := set_backend t (set_db (backend t) d) in
    match res with
    | inr err => Fatal (cannot_begin_tx err)
    | inl h =>
        let t := set_tx t (Some h) in
        let size := bolt.Tx_Size h in
        let db := db (backend t) in
        Done (set_backend t
                (set_sizes (backend t) size
                   (wrap64 (size - wrap64 (bolt.db_FreePageN db
                                           * bolt.db_PageSize db)))))
    end.

(** Lines 158-196. *)
Definition commit (stop : bool) (t : batchTx) : result batchTx :=
  match tx t with
  | Some h =>
      if (pending t =? 0) && negb stop then Done t
      else
        let '(h', d, err) := bolt.Tx_Commit h (db (backend t)) in
        let t := set_tx t (Some h') in
        let t := set_backend t (set_db (backend t) d) in
        let t :=
          set_backend t
            (set_commits (backend t) (wrap64 (commits (backend t) + 1))) in
        let t := set_pending t 0 in
        match err with
        | Some e => Fatal (cannot_commit_tx e)
        | None => begin_new_tx stop t
        end
  | None => begin_new_tx stop t
  end.

(** Lines 150-156. *)
Definition Unlock (t : batchTx) : result batchTx :=
  t <- (if pending t >=? batchLimit (backend t)
        then t <- commit false t ;; Done (set_pending t 0)
        else Done t) ;;
  Mutex_Unlock t.

(** Lines 137-141. *)
Definition Commit (t : batchTx) : result batchTx :=
  t <- Lock t ;;
  t <- commit false t ;;
  Unlock t.

(** Lines 144-148. *)
Definition CommitAndStop (t : batchTx) : result batchTx :=
  t <- Lock t ;;
  t <- commit true t ;;
  Unlock t.

(** Lines 46-50. *)
Definition batchTx_literal (b : Backend) : batchTx :=
  {| locked := false; tx := None; backend := b; pending := 0 |}.

Definition newBatchTx (b : Backend) : result batchTx :=
  let tx := batchTx_literal b in
  Commit tx.

(** ** The [BatchTx] interface (lines 26-37) *)

(** A call of one method of the interface, with its arguments.  [S] is the
    type of the state of the visitors handed to [UnsafeForEach]. *)
Inductive call (S : Type) : Type :=
| call_Lock
| call_Unlock
| call_UnsafeCreateBucket (name : bytes)
| call_UnsafePut (bucketName key value : bytes)
| call_UnsafeSeqPut (bucketName key value : bytes)
| call_UnsafeRange (bucketName key endKey : bytes) (limit : Z)
| call_UnsafeDelete (bucketName key : bytes)
| call_UnsafeForEach (bucketName : bytes)
    (visitor : bytes -> bytes -> S -> S * option error)
| call_Commit
| call_CommitAndStop.

Arguments call_Lock {S}.
Arguments call_Unlock {S}.
Arguments call_UnsafeCreateBucket {S} name.
Arguments call_UnsafePut {S} bucketName key value.
Arguments call_UnsafeSeqPut {S} bucketName key value.
Arguments call_UnsafeRange {S} bucketName key endKey limit.
Arguments call_UnsafeDelete {S} bucketName key.
Arguments call_UnsafeForEach {S} bucketName visitor.
Arguments call_Commit {S}.
Arguments call_CommitAndStop {S}.

(** What a method hands back to its caller, by its result type in the
    interface. *)
Inductive returned : Type :=
| ret_void
| ret_range (keys vs : list bytes)
| ret_error (err : option error).

(** The state of the batch transaction and of the visitor after the call,
    and what the call returned. *)
Definition invoke {S : Type} (c : call S) (t : batchTx) (s : S)
  : result (batchTx * S * returned) :=
  match c with
  | call_Lock => t' <- Lock t ;; Done (t', s, ret_void)
  | call_Unlock => t' <- Unlock t ;; Done (t', s, ret_void)
  | call_UnsafeCreateBucket name =>
      t' <- UnsafeCreateBucket name t ;; Done (t', s, ret_void)
  | call_UnsafePut b k v => t' <- UnsafePut b k v t ;; Done (t', s, ret_void)
  | call_UnsafeSeqPut b k v =>
      t' <- UnsafeSeqPut b k v t ;; Done (t', s, ret_void)
  | call_UnsafeRange b k e limit =>
      r <- UnsafeRange b k e limit t ;; Done (t, s, ret_range (fst r) (snd r))
  | call_UnsafeDelete b k => t' <- UnsafeDelete b k t ;; Done (t', s, ret_void)
  | call_UnsafeForEach b visitor =>
      r <- UnsafeForEach b visitor t s ;; Done (t, fst r, ret_error (snd r))
  | call_Commit => t' <- Commit t ;; Done (t', s, ret_void)
  | call_CommitAndStop => t' <- CommitAndStop t ;; Done (t', s, ret_void)
  end.

(** A visitor that also records every pair it is called with. *)
Definition recording {S : Type}
  (visitor : bytes -> bytes -> S -> S * option error)
  : bytes -> bytes -> S * list (bytes * bytes)
    -> (S * list (bytes * bytes)) * option error :=
  fun k v st =>
    let (s', err) := visitor k v (fst st) in
    ((s', snd st ++ [(k, v)]), err).

(** ** Notions the statements use *)

(** The number of durable flushes the store has performed. *)
Definition flushes (t : batchTx) : Z := bolt.db_flushes (db (backend t)).

(** The calls that run [commit]. *)
Definition runs_commit {S : Type} (c : call S) : bool :=
  match c with
  | call_Unlock | call_Commit | call_CommitAndStop => true
  | _ => false
  end.

(** The handle of [t] exists and is open. *)
Definition open_handle (t : batchTx) : bool :=
  match tx t with
  | Some h => bolt.tx_open h
  | None => false
  end.

(** The store is open and its next flush will not fail. *)
Definition next_flush_ok (d : bolt.DB) : bool :=
  match bolt.db_script d with
  | bolt.FlushFails :: _ => false
  | _ => true
  end.

(** The bucket [name] as the open handle of [t] sees it. *)
Definition bucket_of (t : batchTx) (name : bytes) : option bolt.Bucket :=
  match tx t with
  | Some h => if bolt.tx_open h then bolt.lookup name (bolt.tx_root h) else None
  | None => None
  end.

(** How many buckets of the handle of [t] are called [name]. *)
Definition buckets_named (t : batchTx) (name : bytes) : nat :=
  match tx t with
  | Some h =>
      List.length (filter (bytes_eqb name) (bolt.keys_of (bolt.tx_root h)))
  | None => 0%nat
  end.

(** The range scan in the words of the specification (section 4.1): the
    pairs of the bucket whose key [k] satisfies key <= k < endKey, in the
    bucket's order, cut after [limit] pairs when [limit > 0]. *)
Definition within (key endKey k : bytes) : bool :=
  negb (bytes_ltb k key) && bytes_ltb k endKey.

Definition scan_spec (l : bolt.table bytes) (key endKey : bytes) (limit : Z)
  : bolt.table bytes :=
  let hits := filter (fun kv => within key endKey (fst kv)) l in
  if limit >? 0 then firstn (Z.to_nat limit) hits else hits.

(** The size metrics of [t] are those of its open transaction and of the
    store: what lines 192-195 publish. *)
Definition published (t : batchTx) : Prop :=
  exists h,
    tx t = Some h /\ bolt.tx_open h = true
    /\ size (backend t) = bolt.Tx_Size h
    /\ size (backend t) = bolt.db_size (db (backend t))
    /\ sizeInUse (backend t)
       = wrap64 (size (backend t)
                 - wrap64 (bolt.db_FreePageN (db (backend t))
                           * bolt.db_PageSize (db (backend t)))).

(** The state [commit] hands to its second half after a successful flush
    of the handle [h] that left the store as [d] (lines 168-174). *)
Definition after_flush (t : batchTx) (h : bolt.Tx) (d : bolt.DB) : batchTx :=
  {| locked := locked t;
     tx := Some (bolt.close h);
     backend := set_commits (set_db (backend t) d)
                  (wrap64 (commits (backend t) + 1));
     pending := 0 |}.

(** The state [commit] returns when it began a new transaction on the
    store [d] (lines 187-195). *)
Definition after_begin (t : batchTx) (d : bolt.DB) : batchTx :=
  {| locked := locked t;
     tx := Some {| bolt.tx_id := bolt.db_txid d + 1; bolt.tx_open := true;
                   bolt.tx_size := bolt.db_size d;
                   bolt.tx_root := bolt.fresh_root (bolt.db_root d) |};
     backend :=
       set_sizes (set_db (backend t) (bolt.set_rwlock d true))
         (bolt.db_size d)
         (wrap64 (bolt.db_size d
                  - wrap64 (bolt.db_FreePageN d * bolt.db_PageSize d)));
     pending := pending t |}.

(** The store's invariant on what a batch transaction holds: the buckets
    of the store and of the handle, and the pairs of every bucket, are in
    ascending key order. *)
Definition root_ordered (r : bolt.table bolt.Bucket) : Prop :=
  bolt.ordered r
  /\ Forall (fun nb => bolt.ordered (bolt.pairs (snd nb))) r.

Definition store_ordered (t : batchTx) : Prop :=
  root_ordered (bolt.db_root (db (backend t)))
  /\ match tx t with
     | Some h => root_ordered (bolt.tx_root h)
     | None => True
     end.

(** A caller's straight-line sequence of calls: each call is made in the
    state the previous one left, and the sequence ends with the first call
    that does not return. *)
Fixpoint run {S : Type} (cs : list (call S)) (t : batchTx) (s : S)
  : result (batchTx * S) :=
  match cs with
  | [] => Done (t, s)
  | c :: cs' => r <- invoke c t s ;; run cs' (fst (fst r)) (snd (fst r))
  end.

(** The calls that write to a bucket or create one. *)
Definition is_mutation {S : Type} (c : call S) : bool :=
  match c with
  | call_UnsafeCreateBucket _ | call_UnsafePut _ _ _
  | call_UnsafeSeqPut _ _ _ | call_UnsafeDelete _ _ => true
  | _ => false
  end.

(** The pairs of the bucket [name], as a read through the open handle of
    [t] sees them. *)
Definition visible (t : batchTx) (name : bytes) : option (bolt.table bytes) :=
  option_map bolt.pairs (bucket_of t name).

(** The identity of the transaction in the handle field. *)
Definition handle_id (t : batchTx) : option Z := option_map bolt.tx_id (tx t).

(** The batch transaction has a handle, and the store's writer lock is
    held exactly while that handle is open. *)
Definition single_writer (t : batchTx) : Prop :=
  tx t <> None /\ bolt.db_rwlock (db (backend t)) = open_handle t.

(** The calls that go through the handle to the store: the mutations, the
    reads, and the stopping commit, which flushes whatever is pending. *)
Definition uses_handle {S : Type} (c : call S) : bool :=
  match c with
  | call_Lock | call_Unlock | call_Commit => false
  | _ => true
  end.

(** ** Concrete states *)

Definition bs (s : string) : bytes := list_byte_of_string s.

(** An opened store of four pages with nothing in it, no writer, and the
    given flushes to come. *)
Definition example_db (script : list bolt.flush) : bolt.DB :=
  {| bolt.db_opened := true; bolt.db_rwlock := false; bolt.db_root := [];
     bolt.db_txid := 1; bolt.db_size := 16384; bolt.db_FreePageN := 1;
     bolt.db_PageSize := 4096; bolt.db_flushes := 0;
     bolt.db_script := script |}.

(** A backend struct as it is before [newBatchTx]: threshold [K], metrics
    at their zero values. *)
Definition example_backend (K : Z) (script : list bolt.flush) : Backend :=
  {| db := example_db script; batchLimit := K; commits := 0; size := 0;
     sizeInUse := 0 |}.

Definition example_bucket : bolt.Bucket :=
  {| bolt.pairs := [(bs "a", bs "1"); (bs "b", bs "2"); (bs "c", bs "3")];
     bolt.FillPercent := 50 |}.

(** A batch transaction on the backend above, holding the lock, with the
    bucket "key" of three pairs in its open transaction and [p] pending
    mutations. *)
Definition example_state (K p : Z) (script : list bolt.flush) : batchTx :=
  {| locked := true;
     tx := Some {| bolt.tx_id := 2; bolt.tx_open := true;
                   bolt.tx_size := 16384;
                   bolt.tx_root := [(bs "key", example_bucket)] |};
     backend := set_sizes
                  (set_db (example_backend K script)
                     (bolt.set_rwlock (example_db script) true))
                  16384 12288;
     pending := p |}.

(** The calls that build [example_state K 4 script] from the constructor,
    for a threshold above 4. *)
Definition example_run (K : Z) (script : list bolt.flush) : result batchTx :=
  t <- newBatchTx (example_backend K script) ;;
  t <- Lock t ;;
  t <- UnsafeCreateBucket (bs "key") t ;;
  t <- UnsafePut (bs "key") (bs "c") (bs "3") t ;;
  t <- UnsafePut (bs "key") (bs "a") (bs "1") t ;;
  UnsafePut (bs "key") (bs "b") (bs "2") t.

(** A visitor without state that fails on the key "b". *)
Definition fails_on_b (k v : bytes) (s : unit) : unit * option error :=
  (s, if bytes_eqb k (bs "b") then Some (errorString "stop") else None).

(** * Properties *)

(** ** The byte order *)

Lemma to_N_inj (x y : byte) : Byte.to_N x = Byte.to_N y -> x = y.
Proof.
  intros E.
  assert (H : Some x = Some y)
    by (rewrite <- (Byte.of_to_N x), <- (Byte.of_to_N y), E; reflexivity).
  now inversion H.
Qed.

Lemma bytes_cmp_refl (a : bytes) : bytes_cmp a a = Eq.
Proof.
  induction a as [|x a IH]; simpl; [reflexivity|].
  now rewrite N.compare_refl.
Qed.

Lemma bytes_cmp_eq (a b : bytes) : bytes_cmp a b = Eq -> a = b.
Proof.
  revert b; induction a as [|x a IH]; intros [|y b]; simpl;
    try reflexivity; try discriminate.
  destruct (N.compare_spec (Byte.to_N x) (Byte.to_N y)) as [E|L|L];
    try discriminate.
  intros H. f_equal; [now apply to_N_inj | now apply IH].
Qed.

Lemma bytes_cmp_antisym (a b : bytes) :
  bytes_cmp b a = CompOpp (bytes_cmp a b).
Proof.
  revert b; induction a as [|x a IH]; intros [|y b]; simpl; try reflexivity.
  rewrite (N.compare_antisym (Byte.to_N x) (Byte.to_N y)).
  destruct (Byte.to_N x ?= Byte.to_N y)%N; simpl; auto.
Qed.

Lemma bytes_lt_trans (a b c : bytes) :
  bytes_lt a b -> bytes_lt b c -> bytes_lt a c.
Proof.
  unfold bytes_lt.
  revert b c; induction a as [|x a IH]; intros [|y b] [|z c]; simpl;
    try discriminate; try reflexivity.
  destruct (N.compare_spec (Byte.to_N x) (Byte.to_N y)) as [E|L|L];
    try discriminate;
    destruct (N.compare_spec (Byte.to_N y) (Byte.to_N z)) as [E'|L'|L'];
    try discriminate; intros H1 H2.
  - rewrite E, E', N.compare_refl. eauto.
  - rewrite E. now apply N.compare_lt_iff in L'; rewrite L'.
  - rewrite <- E'. now apply N.compare_lt_iff in L; rewrite L.
  - assert (L2 : (Byte.to_N x < Byte.to_N z)%N) by lia.
    now apply N.compare_lt_iff in L2; rewrite L2.
Qed.

Lemma bytes_ltb_lt (a b : bytes) : bytes_ltb a b = true <-> bytes_lt a b.
Proof.
  unfold bytes_ltb, bytes_Compare, bytes_lt.
  destruct (bytes_cmp a b); simpl; split; intros H;
    try reflexivity; try discriminate.
Qed.

Lemma bytes_ltb_ge (a b : bytes) : bytes_ltb a b = false <-> bytes_le b a.
Proof.
  unfold bytes_ltb, bytes_Compare, bytes_le.
  rewrite (bytes_cmp_antisym a b).
  destruct (bytes_cmp a b); simpl; split; intros H;
    try reflexivity; try discriminate; try congruence.
Qed.

Lemma bytes_eqb_eq (a b : bytes) : bytes_eqb a b = true <-> a = b.
Proof.
  unfold bytes_eqb; split.
  - destruct (bytes_cmp a b) eqn:E; try discriminate.
    intros _. now apply bytes_cmp_eq.
  - intros ->. now rewrite bytes_cmp_refl.
Qed.

Lemma bytes_eqb_refl (a : bytes) : bytes_eqb a a = true.
Proof. now apply bytes_eqb_eq. Qed.

Lemma bytes_lt_irrefl (a : bytes) : ~ bytes_lt a a.
Proof. unfold bytes_lt. now rewrite bytes_cmp_refl. Qed.

Lemma bytes_lt_le_trans (a b c : bytes) :
  bytes_lt a b -> bytes_le b c -> bytes_lt a c.
Proof.
  unfold bytes_le. intros H1 H2.
  destruct (bytes_cmp b c) eqn:E; try congruence.
  - apply bytes_cmp_eq in E. now subst.
  - now apply (bytes_lt_trans a b c).
Qed.

Lemma bytes_lt_neq (a b : bytes) : bytes_lt a b -> bytes_eqb b a = false.
Proof.
  intros H. destruct (bytes_eqb b a) eqn:E; [|reflexivity].
  apply bytes_eqb_eq in E. subst. now apply bytes_lt_irrefl in H.
Qed.

Lemma bytes_le_lt_trans (a b c : bytes) :
  bytes_le a b -> bytes_lt b c -> bytes_lt a c.
Proof.
  unfold bytes_le. intros H1 H2.
  destruct (bytes_cmp a b) eqn:E; try congruence.
  - apply bytes_cmp_eq in E. now subst.
  - now apply (bytes_lt_trans a b c).
Qed.

Lemma bytes_lt_le (a b : bytes) : bytes_lt a b -> bytes_le a b.
Proof. unfold bytes_lt, bytes_le. congruence. Qed.

(** ** Ordered key spaces *)

Section Tables.

Context {V : Type}.

Implicit Types (l : bolt.table V) (k : bytes) (v : V).

Lemma ascendingb_sorted (ks : list bytes) :
  bolt.ascendingb ks = true -> StronglySorted bytes_lt ks.
Proof.
  induction ks as [|k ks IH]; [constructor|].
  destruct ks as [|k' ks]; [repeat constructor|].
  change (bolt.ascendingb (k :: k' :: ks))
    with (bytes_ltb k k' && bolt.ascendingb (k' :: ks)).
  intros H. apply andb_prop in H as [H1 H2].
  apply bytes_ltb_lt in H1. specialize (IH H2).
  constructor; [exact IH|].
  constructor; [exact H1|].
  apply StronglySorted_inv in IH as [_ IH].
  eapply Forall_impl; [|exact IH].
  intros c Hc. now apply (bytes_lt_trans k k' c).
Qed.

Lemma sorted_ascendingb (ks : list bytes) :
  StronglySorted bytes_lt ks -> bolt.ascendingb ks = true.
Proof.
  induction 1 as [|k ks Hs IH Hk]; [reflexivity|].
  destruct ks as [|k' ks]; [reflexivity|].
  change (bytes_ltb k k' && bolt.ascendingb (k' :: ks) = true).
  apply andb_true_intro; split; [|exact IH].
  apply bytes_ltb_lt. now inversion Hk.
Qed.

Lemma ordered_inv k v l :
  bolt.ordered ((k, v) :: l) ->
  bolt.ordered l /\ Forall (fun kv => bytes_lt k (fst kv)) l.
Proof.
  unfold bolt.ordered, bolt.keys_of. intros H.
  apply ascendingb_sorted in H. simpl in H.
  apply StronglySorted_inv in H as [H1 H2]. split.
  - now apply sorted_ascendingb.
  - rewrite Forall_forall in *. intros a Ha. apply H2.
    now apply in_map.
Qed.

Lemma ordered_cons k v l :
  bolt.ordered l -> Forall (fun kv => bytes_lt k (fst kv)) l ->
  bolt.ordered ((k, v) :: l).
Proof.
  unfold bolt.ordered, bolt.keys_of. intros H1 H2.
  apply sorted_ascendingb. simpl. constructor.
  - now apply ascendingb_sorted.
  - rewrite Forall_forall in *. intros a Ha.
    apply in_map_iff in Ha as [x [<- Hx]]. now apply H2.
Qed.

Lemma lookup_Some_In k v l : bolt.lookup k l = Some v -> In (k, v) l.
Proof.
  induction l as [|[k' v'] l IH]; simpl; [discriminate|].
  destruct (bytes_eqb k k') eqn:E.
  - apply bytes_eqb_eq in E. subst. intros H. inversion H. now left.
  - intros H. right. now apply IH.
Qed.

Lemma lookup_None_absent k l :
  bolt.lookup k l = None -> ~ In k (bolt.keys_of l).
Proof.
  induction l as [|[k' v'] l IH]; simpl; [tauto|].
  destruct (bytes_eqb k k') eqn:E; [discriminate|].
  intros H [H1|H1]; [|now apply IH].
  subst. now rewrite bytes_eqb_refl in E.
Qed.

Lemma absent_lookup_None k l :
  ~ In k (bolt.keys_of l) -> bolt.lookup k l = None.
Proof.
  induction l as [|[k' v'] l IH]; simpl; [reflexivity|].
  intros H. destruct (bytes_eqb k k') eqn:E.
  - apply bytes_eqb_eq in E. subst. tauto.
  - apply IH. tauto.
Qed.

Lemma In_lookup k v l :
  bolt.ordered l -> In (k, v) l -> bolt.lookup k l = Some v.
Proof.
  induction l as [|[k' v'] l IH]; simpl; [tauto|].
  intros Ho [H|H].
  - inversion H. subst. now rewrite bytes_eqb_refl.
  - apply ordered_inv in Ho as [Ho Hall].
    rewrite Forall_forall in Hall. specialize (Hall _ H). simpl in Hall.
    rewrite (bytes_lt_neq _ _ Hall). now apply IH.
Qed.

Lemma lookup_insert k v l : bolt.lookup k (bolt.insert k v l) = Some v.
Proof.
  induction l as [|[k' v'] l IH]; simpl.
  - now rewrite bytes_eqb_refl.
  - destruct (bytes_cmp k k') eqn:E; simpl.
    + now rewrite bytes_eqb_refl.
    + now rewrite bytes_eqb_refl.
    + unfold bytes_eqb at 1. now rewrite E.
Qed.

Lemma insert_bounds k0 k v l :
  bytes_lt k0 k -> Forall (fun kv => bytes_lt k0 (fst kv)) l ->
  Forall (fun kv => bytes_lt k0 (fst kv)) (bolt.insert k v l).
Proof.
  intros Hk. induction l as [|[k' v'] l IH]; simpl; intros H.
  - now repeat constructor.
  - inversion H as [|? ? H1 H2]; subst.
    destruct (bytes_cmp k k'); constructor; auto.
Qed.

Lemma insert_ordered k v l :
  bolt.ordered l -> bolt.ordered (bolt.insert k v l).
Proof.
  induction l as [|[k' v'] l IH]; simpl; intros Ho; [reflexivity|].
  pose proof (ordered_inv _ _ _ Ho) as [Ho' Hall].
  destruct (bytes_cmp k k') eqn:E.
  - apply bytes_cmp_eq in E. subst. now apply ordered_cons.
  - apply ordered_cons; [exact Ho|].
    constructor; [exact E|].
    eapply Forall_impl; [|exact Hall].
    intros a Ha. now apply (bytes_lt_trans k k' (fst a)).
  - apply ordered_cons; [now apply IH|].
    apply insert_bounds; [|exact Hall].
    unfold bytes_lt. rewrite (bytes_cmp_antisym k k'), E. reflexivity.
Qed.

Lemma remove_bounds k0 k l :
  Forall (fun kv => bytes_lt k0 (fst kv)) l ->
  Forall (fun kv => bytes_lt k0 (fst kv)) (bolt.remove k l).
Proof.
  induction l as [|[k' v'] l IH]; simpl; intros H; [constructor|].
  inversion H as [|? ? H1 H2]; subst.
  destruct (bytes_cmp k k'); auto.
Qed.

Lemma remove_ordered k l :
  bolt.ordered l -> bolt.ordered (bolt.remove k l).
Proof.
  induction l as [|[k' v'] l IH]; simpl; intros Ho; [reflexivity|].
  pose proof (ordered_inv _ _ _ Ho) as [Ho' Hall].
  destruct (bytes_cmp k k'); auto.
  apply ordered_cons; [now apply IH | now apply remove_bounds].
Qed.

(** On an ordered key space, seeking is dropping the keys below [k]. *)
Lemma seek_filter k l :
  bolt.ordered l ->
  bolt.seek k l = filter (fun kv => negb (bytes_ltb (fst kv) k)) l.
Proof.
  induction l as [|[k' v'] l IH]; simpl; intros Ho; [reflexivity|].
  pose proof (ordered_inv _ _ _ Ho) as [Ho' Hall].
  destruct (bytes_ltb k' k) eqn:E; simpl; [now apply IH|].
  f_equal. symmetry. apply forallb_filter_id. apply forallb_forall.
  intros [k2 v2] Hin. simpl.
  rewrite Forall_forall in Hall. specialize (Hall _ Hin). simpl in Hall.
  apply bytes_ltb_ge in E.
  apply negb_true_iff, bytes_ltb_ge, bytes_lt_le.
  now apply (bytes_le_lt_trans k k' k2).
Qed.

Lemma seek_ordered k l : bolt.ordered l -> bolt.ordered (bolt.seek k l).
Proof.
  induction l as [|[k' v'] l IH]; simpl; intros Ho; [reflexivity|].
  destruct (bytes_ltb k' k); [|exact Ho].
  apply IH. now apply ordered_inv in Ho.
Qed.

Lemma filter_ordered (f : bytes * V -> bool) l :
  bolt.ordered l -> bolt.ordered (filter f l).
Proof.
  induction l as [|[k' v'] l IH]; simpl; intros Ho; [reflexivity|].
  pose proof (ordered_inv _ _ _ Ho) as [Ho' Hall].
  destruct (f (k', v')); [|now apply IH].
  apply ordered_cons; [now apply IH|].
  rewrite Forall_forall in *. intros a Ha.
  apply filter_In in Ha as [Ha _]. now apply Hall.
Qed.

Lemma firstn_ordered (n : nat) l :
  bolt.ordered l -> bolt.ordered (firstn n l).
Proof.
  revert l; induction n as [|n IH]; intros [|[k' v'] l] Ho;
    simpl; try reflexivity.
  pose proof (ordered_inv _ _ _ Ho) as [Ho' Hall].
  apply ordered_cons; [now apply IH|].
  rewrite Forall_forall in *. intros a Ha.
  apply Hall. rewrite <- (firstn_skipn n l). apply in_or_app. now left.
Qed.

End Tables.

(** ** The range scan *)

Lemma filter_none {A : Type} (f : A -> bool) (l : list A) :
  Forall (fun a => f a = false) l -> filter f l = [].
Proof.
  induction 1 as [|a l Ha _ IH]; simpl; [reflexivity|].
  now rewrite Ha.
Qed.

Lemma filter_twice {A : Type} (f g : A -> bool) (l : list A) :
  filter g (filter f l) = filter (fun a => f a && g a) l.
Proof.
  induction l as [|a l IH]; simpl; [reflexivity|].
  destruct (f a); simpl; [destruct (g a)|]; now rewrite IH.
Qed.

Lemma above_end_none (endKey k v : bytes) (l : bolt.table bytes) :
  bolt.ordered ((k, v) :: l) -> bytes_ltb k endKey = false ->
  filter (fun kv => bytes_ltb (fst kv) endKey) ((k, v) :: l) = [].
Proof.
  intros Ho E. apply filter_none. constructor; [exact E|].
  apply ordered_inv in Ho as [_ Hall].
  eapply Forall_impl; [|exact Hall].
  intros [k2 v2] H. simpl in *.
  apply bytes_ltb_ge in E. apply bytes_ltb_ge, bytes_lt_le.
  now apply (bytes_le_lt_trans endKey k k2).
Qed.

(** The loop of [UnsafeRange], started with [keys] and [vs] already
    collected, appends the pairs of the cursor that lie below [endKey],
    as many as the limit still allows. *)
Lemma range_loop_spec (c : bolt.Cursor) (endKey : bytes) (limit : Z) :
  bolt.ordered c ->
  forall keys vs : list bytes,
    limit <= 0 \/ Z.of_nat (List.length keys) < limit ->
    range_loop c endKey limit keys vs =
    let hits := filter (fun kv => bytes_ltb (fst kv) endKey) c in
    let taken :=
      if limit >? 0
      then firstn (Z.to_nat limit - List.length keys) hits
      else hits in
    (keys ++ map fst taken, vs ++ map snd taken).
Proof.
  induction c as [|[ck cv] next IH]; intros Ho keys vs Hl.
  - simpl. destruct (limit >? 0); rewrite ?firstn_nil; simpl;
      now rewrite !app_nil_r.
  - cbn [range_loop].
    change (bytes_Compare ck endKey <? 0) with (bytes_ltb ck endKey).
    destruct (bytes_ltb ck endKey) eqn:E.
    + cbn zeta. rewrite length_app. cbn [List.length].
      cbn [filter fst]. rewrite E.
      destruct (limit >? 0) eqn:Hpos; cbn [andb].
      * assert (Hlt : 0 < limit) by (now apply Z.gtb_lt).
        destruct (limit =? Z.of_nat (List.length keys + 1)) eqn:Hq.
        -- apply Z.eqb_eq in Hq.
           replace (Z.to_nat limit - List.length keys)%nat with 1%nat by lia.
           reflexivity.
        -- apply Z.eqb_neq in Hq.
           rewrite (IH (proj1 (ordered_inv _ _ _ Ho))).
           2:{ right. rewrite length_app. cbn [List.length]. lia. }
           cbn zeta.
           rewrite length_app. cbn [List.length].
           replace (Z.to_nat limit - List.length keys)%nat
             with (S (Z.to_nat limit - (List.length keys + 1)))%nat by lia.
           cbn [firstn map fst snd]. now rewrite <- !app_assoc.
      * rewrite (IH (proj1 (ordered_inv _ _ _ Ho))).
        2:{ left. rewrite Z.gtb_ltb in Hpos. apply Z.ltb_ge in Hpos. lia. }
        cbn zeta. cbn [map fst snd].
        now rewrite <- !app_assoc.
    + rewrite (above_end_none endKey ck cv next Ho E). cbn zeta.
      destruct (limit >? 0); rewrite ?firstn_nil; simpl;
        now rewrite !app_nil_r.
Qed.

Lemma bucket_of_inv (t : batchTx) (name : bytes) (b : bolt.Bucket) :
  bucket_of t name = Some b ->
  exists h, tx t = Some h /\ bolt.tx_open h = true
            /\ bolt.lookup name (bolt.tx_root h) = Some b.
Proof.
  unfold bucket_of. destruct (tx t) as [h|]; [|discriminate].
  destruct (bolt.tx_open h) eqn:E; [|discriminate].
  intros H. now exists h.
Qed.

Lemma len_zero (b : bytes) : (bolt.len b =? 0) = true <-> b = [].
Proof.
  unfold bolt.len. destruct b; simpl; split; intros H;
    try reflexivity; try discriminate.
Qed.

Lemma keys_sorted {V : Type} (l : bolt.table V) :
  bolt.ordered l -> StronglySorted bytes_lt (map fst l).
Proof. intros H. now apply ascendingb_sorted. Qed.

Lemma scan_spec_ordered (l : bolt.table bytes) (key endKey : bytes)
  (limit : Z) :
  bolt.ordered l -> bolt.ordered (scan_spec l key endKey limit).
Proof.
  intros Ho. unfold scan_spec.
  destruct (limit >? 0); [apply firstn_ordered|]; now apply filter_ordered.
Qed.

Lemma scan_spec_within (l : bolt.table bytes) (key endKey : bytes)
  (limit : Z) :
  Forall (fun k => bytes_le key k /\ bytes_lt k endKey)
         (map fst (scan_spec l key endKey limit)).
Proof.
  apply Forall_forall. intros k Hk.
  apply in_map_iff in Hk as [[k' v] [<- Hin]]. simpl.
  assert (H : In (k', v) (filter (fun kv => within key endKey (fst kv)) l)).
  { unfold scan_spec in Hin. destruct (limit >? 0); [|exact Hin].
    rewrite <- (firstn_skipn (Z.to_nat limit)). apply in_or_app. now left. }
  apply filter_In in H as [_ H]. unfold within in H. simpl in H.
  apply andb_prop in H as [H1 H2]. split.
  - now apply bytes_ltb_ge, negb_true_iff.
  - now apply bytes_ltb_lt.
Qed.

(** C5: on an existing bucket, [UnsafeRange] with an empty [endKey] is a
    point lookup: it returns exactly the pair of [key] and its current
    value when the key is present, and an empty result, not an error, when
    it is absent.  With a non-empty [endKey] it returns parallel sequences
    of keys and values, the keys strictly ascending and each within
    key <= k < endKey: the pairs of the range in the bucket's order, cut
    after exactly [limit] of them when [limit > 0] and all of them when
    [limit <= 0].  In all cases the call leaves the batch transaction,
    and so the pending counter, as it was. *)
Theorem UnsafeRange_spec (t : batchTx) (bucketName : bytes)
  (bucket : bolt.Bucket) (key endKey : bytes) (limit : Z)
  (Hb : bucket_of t bucketName = Some bucket)
  (Ho : bolt.ordered (bolt.pairs bucket)) :
  (endKey = [] ->
     (forall v, In (key, v) (bolt.pairs bucket) ->
        UnsafeRange bucketName key endKey limit t = Done ([key], [v]))
     /\ (~ In key (bolt.keys_of (bolt.pairs bucket)) ->
        UnsafeRange bucketName key endKey limit t = Done ([], [])))
  /\ (endKey <> [] ->
      let all := scan_spec (bolt.pairs bucket) key endKey 0 in
      exists keys vs,
        UnsafeRange bucketName key endKey limit t = Done (keys, vs)
        /\ keys = map fst (scan_spec (bolt.pairs bucket) key endKey limit)
        /\ vs = map snd (scan_spec (bolt.pairs bucket) key endKey limit)
        /\ List.length keys = List.length vs
        /\ StronglySorted bytes_lt keys
        /\ Forall (fun k => bytes_le key k /\ bytes_lt k endKey) keys
        /\ (limit > 0 ->
            combine keys vs = firstn (Z.to_nat limit) all
            /\ Z.of_nat (List.length keys)
               = Z.min limit (Z.of_nat (List.length all)))
        /\ (limit <= 0 -> combine keys vs = all))
  /\ (forall (S : Type) (s s' : S) (t' : batchTx) (r : returned),
        invoke (call_UnsafeRange bucketName key endKey limit) t s
        = Done (t', s', r) ->
        t' = t /\ pending t' = pending t).
Proof.
  destruct (bucket_of_inv _ _ _ Hb) as (h & Htx & Hopen & Hlook).
  assert (Hcomb : forall l : bolt.table bytes,
             combine (map fst l) (map snd l) = l).
  { induction l as [|[a b] l IH]; simpl; [reflexivity | now rewrite IH]. }
  split; [|split].
  - intros ->. unfold UnsafeRange, bolt.Tx_Bucket.
    rewrite Htx, Hopen. cbn [bind]. rewrite Hlook.
    change (bolt.len [] =? 0) with true. cbn iota.
    unfold bolt.Bucket_Get. split.
    + intros v Hin. now rewrite (In_lookup _ _ _ Ho Hin).
    + intros Hn. now rewrite (absent_lookup_None _ _ Hn).
  - intros Hne all.
    exists (map fst (scan_spec (bolt.pairs bucket) key endKey limit)),
           (map snd (scan_spec (bolt.pairs bucket) key endKey limit)).
    split; [|repeat split].
    + unfold UnsafeRange, bolt.Tx_Bucket.
      rewrite Htx, Hopen. cbn [bind]. rewrite Hlook.
      destruct (bolt.len endKey =? 0) eqn:El;
        [apply len_zero in El; contradiction|].
      f_equal. unfold bolt.Cursor_Seek.
      rewrite range_loop_spec;
        [| now apply seek_ordered | simpl; lia].
      cbn zeta. rewrite (seek_filter _ _ Ho), filter_twice.
      unfold scan_spec. cbn [List.length app].
      rewrite Nat.sub_0_r. reflexivity.
    + now rewrite !length_map.
    + apply keys_sorted. now apply scan_spec_ordered.
    + apply scan_spec_within.
    + rewrite Hcomb. unfold all, scan_spec.
      destruct (limit >? 0) eqn:E; [reflexivity|].
      rewrite Z.gtb_ltb in E. apply Z.ltb_ge in E. lia.
    + rewrite length_map. unfold all, scan_spec.
      destruct (limit >? 0) eqn:E.
      * change (0 >? 0) with false. cbn iota.
        rewrite length_firstn. lia.
      * rewrite Z.gtb_ltb in E. apply Z.ltb_ge in E. lia.
    + intros Hl. rewrite Hcomb. unfold all, scan_spec.
      destruct (limit >? 0) eqn:E; [|reflexivity].
      apply Z.gtb_lt in E. lia.
  - intros S s s' t' r. cbn [invoke].
    destruct (UnsafeRange bucketName key endKey limit t); cbn [bind];
      try discriminate.
    intros H. inversion H. now subst.
Qed.

(** The statement of [UnsafeRange_spec] at the bucket "key" of
    [example_state]: the lookup of "b", and the scan from "a" to "c" with
    limit 1. *)
Lemma UnsafeRange_spec_witness :
  bucket_of (example_state 10 4 []) (bs "key") = Some example_bucket
  /\ bolt.ordered (bolt.pairs example_bucket)
  /\ UnsafeRange (bs "key") (bs "b") [] 0 (example_state 10 4 [])
     = Done ([bs "b"], [bs "2"])
  /\ exists keys vs,
       UnsafeRange (bs "key") (bs "a") (bs "c") 1 (example_state 10 4 [])
       = Done (keys, vs)
       /\ keys = [bs "a"] /\ vs = [bs "1"].
Proof.
  split; [reflexivity|]. split; [reflexivity|]. split.
  - destruct (UnsafeRange_spec (example_state 10 4 []) (bs "key")
                example_bucket (bs "b") [] 0 eq_refl eq_refl)
      as [H _].
    destruct (H eq_refl) as [H1 _]. apply H1.
    right. left. reflexivity.
  - destruct (UnsafeRange_spec (example_state 10 4 []) (bs "key")
                example_bucket (bs "a") (bs "c") 1 eq_refl eq_refl)
      as [_ [H _]].
    destruct H as (keys & vs & H1 & H2 & H3 & _); [discriminate|].
    exists keys, vs. split; [exact H1|]. split.
    + rewrite H2. reflexivity.
    + rewrite H3. reflexivity.
Defined.

(** ** What [commit] does *)

Lemma begin_new_tx_Done (stop : bool) (t t' : batchTx) :
  begin_new_tx stop t = Done t' ->
  (stop = true /\ t' = t)
  \/ (stop = false
      /\ bolt.db_rwlock (db (backend t)) = false
      /\ bolt.db_opened (db (backend t)) = true
      /\ t' = after_begin t (db (backend t))).
Proof.
  unfold begin_new_tx, bolt.DB_Begin.
  destruct stop; [intros H; inversion H; subst; left; split; reflexivity|].
  destruct (bolt.db_rwlock (db (backend t))) eqn:Hl; [discriminate|].
  destruct (bolt.db_opened (db (backend t))) eqn:Ho; cbn; [|discriminate].
  intros H. inversion H. right. repeat split.
Qed.

Lemma begin_new_tx_returns (t : batchTx) :
  bolt.db_rwlock (db (backend t)) = false ->
  bolt.db_opened (db (backend t)) = true ->
  begin_new_tx false t = Done (after_begin t (db (backend t))).
Proof.
  intros Hl Ho. unfold begin_new_tx, bolt.DB_Begin.
  rewrite Hl, Ho. reflexivity.
Qed.

Lemma after_begin_published (t : batchTx) (d : bolt.DB) :
  published (after_begin t d).
Proof.
  unfold published, after_begin. eexists. cbn. repeat split.
Qed.

Lemma Tx_Commit_ok (h : bolt.Tx) (d : bolt.DB) :
  bolt.tx_open h = true -> next_flush_ok d = true ->
  exists d',
    bolt.Tx_Commit h d = (bolt.close h, d', None)
    /\ bolt.db_flushes d' = bolt.db_flushes d + 1
    /\ bolt.db_rwlock d' = false
    /\ bolt.db_opened d' = bolt.db_opened d
    /\ bolt.db_root d' = bolt.tx_root h.
Proof.
  intros Ho Hf. unfold bolt.Tx_Commit, next_flush_ok in *. rewrite Ho. cbn.
  destruct (bolt.db_script d) as [|[|sz fr] s]; try discriminate;
    eexists; repeat split.
Qed.

Lemma Tx_Commit_None (h h' : bolt.Tx) (d d' : bolt.DB) :
  bolt.Tx_Commit h d = (h', d', None) ->
  bolt.tx_open h = true /\ h' = bolt.close h
  /\ bolt.db_flushes d' = bolt.db_flushes d + 1
  /\ bolt.db_rwlock d' = false
  /\ bolt.db_opened d' = bolt.db_opened d
  /\ bolt.db_txid d' = bolt.tx_id h
  /\ bolt.db_root d' = bolt.tx_root h.
Proof.
  unfold bolt.Tx_Commit.
  destruct (bolt.tx_open h); cbn; [|discriminate].
  destruct (bolt.db_script d) as [|[|sz fr] s]; try discriminate;
    intros H; inversion H; repeat split.
Qed.

(** The three ways [commit] returns: it had nothing to do; there was no
    handle yet; it flushed. *)
Lemma commit_Done (stop : bool) (t t' : batchTx) :
  commit stop t = Done t' ->
  (exists h, tx t = Some h /\ pending t = 0 /\ stop = false /\ t' = t)
  \/ (tx t = None /\ begin_new_tx stop t = Done t')
  \/ (exists h d,
        tx t = Some h /\ (pending t <> 0 \/ stop = true)
        /\ bolt.Tx_Commit h (db (backend t)) = (bolt.close h, d, None)
        /\ begin_new_tx stop (after_flush t h d) = Done t').
Proof.
  unfold commit. destruct (tx t) as [h|] eqn:Htx; [|now right; left].
  destruct ((pending t =? 0) && negb stop) eqn:E.
  - apply andb_prop in E as [E1 E2]. apply Z.eqb_eq in E1.
    apply negb_true_iff in E2. intros H. inversion H. subst t'.
    left. exists h. auto.
  - destruct (bolt.Tx_Commit h (db (backend t))) as [[h' d] [e|]] eqn:Hc;
      [discriminate|].
    intros H. right. right. exists h, d.
    destruct (Tx_Commit_None _ _ _ _ Hc) as (_ & -> & _).
    split; [reflexivity|]. split; [|split; [exact Hc | exact H]].
    apply andb_false_iff in E as [E|E].
    + left. now apply Z.eqb_neq.
    + right. now apply negb_false_iff.
Qed.

(** What a returning [commit] has done to the counters: either nothing was
    flushed and the counters are as before, or exactly one flush went
    through, the commit counter went up by one and the pending counter is
    zero. *)
Lemma commit_counts (stop : bool) (t t' : batchTx) :
  commit stop t = Done t' ->
  (flushes t' = flushes t
   /\ commits (backend t') = commits (backend t)
   /\ pending t' = pending t
   /\ (tx t = None \/ (pending t = 0 /\ stop = false /\ t' = t)))
  \/ (flushes t' = flushes t + 1
      /\ commits (backend t') = wrap64 (commits (backend t) + 1)
      /\ pending t' = 0
      /\ tx t <> None /\ (pending t <> 0 \/ stop = true)).
Proof.
  intros H. apply commit_Done in H as [H|[H|H]].
  - destruct H as (h & Htx & Hp & Hs & ->). left.
    repeat split. right. repeat split; assumption.
  - destruct H as [Htx H]. left.
    apply begin_new_tx_Done in H as [[_ ->]|(_ & _ & _ & ->)]; cbn;
      repeat split; left; exact Htx.
  - destruct H as (h & d & Htx & Hp & Hc & H). right.
    apply Tx_Commit_None in Hc as (_ & _ & Hf & _).
    assert (Hn : tx t <> None) by congruence.
    apply begin_new_tx_Done in H as [[_ ->]|(_ & _ & _ & ->)];
      unfold flushes; cbn; repeat split; assumption.
Qed.

(** What a returning [commit] has done to the size metrics: it left them
    alone, or it began a transaction and published them. *)
Lemma commit_sizes (stop : bool) (t t' : batchTx) :
  commit stop t = Done t' ->
  (size (backend t') = size (backend t)
   /\ sizeInUse (backend t') = sizeInUse (backend t)
   /\ (stop = true \/ t' = t))
  \/ (stop = false /\ published t' /\ tx t' <> tx t).
Proof.
  intros H. apply commit_Done in H as [H|[H|H]].
  - destruct H as (h & Htx & Hp & Hs & ->). left. auto.
  - destruct H as [Htx H].
    apply begin_new_tx_Done in H as [[-> ->]|(-> & _ & _ & ->)].
    + left. auto.
    + right. split; [reflexivity|].
      split; [apply after_begin_published|].
      rewrite Htx. discriminate.
  - destruct H as (h & d & Htx & Hp & Hc & H).
    apply Tx_Commit_None in Hc as (_ & _ & _ & _ & _ & Hid & _).
    apply begin_new_tx_Done in H as [[-> ->]|(-> & _ & _ & ->)].
    + left. cbn. auto.
    + right. split; [reflexivity|].
      split; [apply after_begin_published|].
      rewrite Htx. cbn. intros E. inversion E as [E'].
      apply (f_equal bolt.tx_id) in E'. cbn in E'. lia.
Qed.

(** What a returning [commit] has done to the rest of the state. *)
Lemma commit_frame (stop : bool) (t t' : batchTx) :
  commit stop t = Done t' ->
  locked t' = locked t
  /\ batchLimit (backend t') = batchLimit (backend t)
  /\ (tx t <> None -> tx t' <> None)
  /\ (stop = false -> tx t' <> None)
  /\ (stop = true -> forall h, tx t = Some h ->
      tx t' = Some (bolt.close h)
      /\ bolt.db_rwlock (db (backend t')) = false).
Proof.
  intros H. apply commit_Done in H as [H|[H|H]].
  - destruct H as (h & Htx & Hp & Hs & ->).
    repeat split; auto; try congruence.
  - destruct H as [Htx H].
    apply begin_new_tx_Done in H as [[-> ->]|(-> & _ & _ & ->)]; cbn;
      repeat split; auto; try congruence; try discriminate.
  - destruct H as (h & d & Htx & Hp & Hc & H).
    apply Tx_Commit_None in Hc as (_ & _ & _ & Hl & _).
    apply begin_new_tx_Done in H as [[-> ->]|(-> & _ & _ & ->)]; cbn;
      repeat split; auto; try congruence; try discriminate.
Qed.

(** ** What [Unlock] does *)

Lemma Unlock_Done (t t' : batchTx) :
  Unlock t = Done t' ->
  (pending t < batchLimit (backend t) /\ locked t = true
   /\ t' = set_locked t false)
  \/ (pending t >= batchLimit (backend t)
      /\ exists t1, commit false t = Done t1 /\ locked t = true
                    /\ t' = set_locked (set_pending t1 0) false).
Proof.
  unfold Unlock, Mutex_Unlock.
  destruct (pending t >=? batchLimit (backend t)) eqn:E; cbn [bind].
  - destruct (commit false t) as [t1| | |] eqn:Hc; cbn [bind];
      try discriminate.
    pose proof (commit_frame _ _ _ Hc) as [Hl _].
    cbn [locked set_pending]. rewrite Hl.
    destruct (locked t); [|discriminate].
    intros H. inversion H. right. split.
    + apply Z.geb_le in E. lia.
    + exists t1. auto.
  - destruct (locked t); [|discriminate].
    intros H. inversion H. left. repeat split.
    rewrite Z.geb_leb in E. apply Z.leb_gt in E. lia.
Qed.

Lemma Unlock_below (t : batchTx) :
  pending t < batchLimit (backend t) -> locked t = true ->
  Unlock t = Done (set_locked t false).
Proof.
  intros Hp Hl. unfold Unlock, Mutex_Unlock.
  destruct (pending t >=? batchLimit (backend t)) eqn:E.
  - apply Z.geb_le in E. lia.
  - cbn [bind]. now rewrite Hl.
Qed.

Lemma Unlock_above (t t1 : batchTx) :
  pending t >= batchLimit (backend t) -> locked t = true ->
  commit false t = Done t1 ->
  Unlock t = Done (set_locked (set_pending t1 0) false).
Proof.
  intros Hp Hl Hc. unfold Unlock, Mutex_Unlock.
  destruct (pending t >=? batchLimit (backend t)) eqn:E.
  - rewrite Hc. cbn [bind locked set_pending].
    destruct (commit_frame _ _ _ Hc) as [-> _]. now rewrite Hl.
  - rewrite Z.geb_leb in E. apply Z.leb_gt in E. lia.
Qed.

Lemma commit_nothing_to_do (t : batchTx) (h : bolt.Tx) :
  tx t = Some h -> pending t = 0 -> commit false t = Done t.
Proof.
  intros Htx Hp. unfold commit. rewrite Htx, Hp. reflexivity.
Qed.

Lemma batchTx_eta (t : batchTx) :
  {| locked := locked t; tx := tx t; backend := backend t;
     pending := pending t |} = t.
Proof. now destruct t. Qed.

Lemma commit_flushes (stop : bool) (t : batchTx) (h : bolt.Tx) :
  tx t = Some h -> bolt.tx_open h = true ->
  next_flush_ok (db (backend t)) = true ->
  pending t <> 0 \/ stop = true ->
  exists d,
    bolt.Tx_Commit h (db (backend t)) = (bolt.close h, d, None)
    /\ bolt.db_flushes d = bolt.db_flushes (db (backend t)) + 1
    /\ bolt.db_rwlock d = false
    /\ bolt.db_opened d = bolt.db_opened (db (backend t))
    /\ bolt.db_txid d = bolt.tx_id h
    /\ commit stop t = begin_new_tx stop (after_flush t h d).
Proof.
  intros Htx Ho Hf Hp.
  destruct (Tx_Commit_ok h _ Ho Hf) as (d & Hc & H1 & H2 & H3 & _).
  exists d. repeat split; auto.
  - unfold bolt.Tx_Commit in Hc. rewrite Ho in Hc. cbn in Hc.
    destruct (bolt.db_script (db (backend t))) as [|[|sz fr] s];
      inversion Hc; reflexivity.
  - unfold commit. rewrite Htx.
    assert (E : (pending t =? 0) && negb stop = false).
    { apply andb_false_iff. destruct Hp as [Hp| ->].
      - left. now apply Z.eqb_neq.
      - now right. }
    rewrite E, Hc. reflexivity.
Qed.

Lemma wrap64_id (z : Z) : min_int64 <= z <= max_int64 -> wrap64 z = z.
Proof.
  unfold wrap64, min_int64, max_int64. intros H.
  rewrite Z.mod_small; lia.
Qed.

(** [CommitAndStop] on an open handle whose flush goes through returns,
    with the handle flushed and closed and nothing begun. *)
Lemma CommitAndStop_returns (t : batchTx) (h : bolt.Tx) :
  tx t = Some h -> bolt.tx_open h = true -> locked t = false ->
  next_flush_ok (db (backend t)) = true ->
  exists d,
    bolt.Tx_Commit h (db (backend t)) = (bolt.close h, d, None)
    /\ bolt.db_flushes d = bolt.db_flushes (db (backend t)) + 1
    /\ bolt.db_rwlock d = false
    /\ CommitAndStop t = Done (set_locked (after_flush t h d) false).
Proof.
  intros Htx Ho Hl Hf.
  destruct (commit_flushes true (set_locked t true) h Htx Ho Hf
              (or_intror eq_refl)) as (d & Hc & H1 & H2 & _ & _ & Hcm).
  exists d. repeat split; auto.
  unfold CommitAndStop, Lock. rewrite Hl. cbn [bind].
  rewrite Hcm. cbn [begin_new_tx bind].
  set (t1 := after_flush (set_locked t true) h d).
  destruct (Z_lt_ge_dec (pending t1) (batchLimit (backend t1))) as [Hlt|Hge].
  - rewrite (Unlock_below t1 Hlt eq_refl). reflexivity.
  - rewrite (Unlock_above t1 t1 Hge eq_refl
               (commit_nothing_to_do t1 (bolt.close h) eq_refl eq_refl)).
    reflexivity.
Qed.

(** ** Committing, stopping and unlocking *)

(** C7: when [CommitAndStop] is called with pending > 0 and an open
    transaction handle (the lock free, the store's flush going through),
    it flushes exactly once: the store has performed one more flush, the
    commit counter is one higher and the pending counter is 0.  It opens
    no replacement: the handle field holds the same transaction, now
    closed, and the store's writer lock is free, so no transaction is left
    open. *)
Theorem CommitAndStop_flushes_once (t : batchTx) (h : bolt.Tx)
  (Hp : pending t > 0)
  (Htx : tx t = Some h) (Ho : bolt.tx_open h = true)
  (Hl : locked t = false)
  (Hf : next_flush_ok (db (backend t)) = true)
  (Hc : min_int64 <= commits (backend t) < max_int64) :
  exists t',
    CommitAndStop t = Done t'
    /\ flushes t' = flushes t + 1
    /\ commits (backend t') = commits (backend t) + 1
    /\ pending t' = 0
    /\ tx t' = Some (bolt.close h)
    /\ open_handle t' = false
    /\ bolt.db_rwlock (db (backend t')) = false
    /\ locked t' = false
    /\ size (backend t') = size (backend t)
    /\ sizeInUse (backend t') = sizeInUse (backend t).
Proof.
  destruct (CommitAndStop_returns t h Htx Ho Hl Hf) as (d & _ & H1 & H2 & H).
  eexists. split; [exact H|].
  unfold flushes. cbn. repeat split; auto.
  apply wrap64_id. unfold min_int64, max_int64 in *. lia.
Qed.

Lemma CommitAndStop_flushes_once_witness :
  pending (set_locked (example_state 10 4 []) false) > 0
  /\ exists t',
       CommitAndStop (set_locked (example_state 10 4 []) false) = Done t'
       /\ flushes t' = 1 /\ commits (backend t') = 1 /\ pending t' = 0
       /\ open_handle t' = false.
Proof.
  split; [reflexivity|].
  assert (Hc : min_int64
               <= commits (backend (set_locked (example_state 10 4 []) false))
               < max_int64) by (cbn; unfold min_int64, max_int64; lia).
  destruct (CommitAndStop_flushes_once
              (set_locked (example_state 10 4 []) false) _
              eq_refl eq_refl eq_refl eq_refl eq_refl Hc)
    as (t' & H & H1 & H2 & H3 & _ & H4 & _).
  exists t'. repeat split; assumption.
Defined.

(** C10: [CommitAndStop] does not clear the handle field.  When it returns
    (open handle, lock free, the flush going through), the field still
    holds the transaction it has just committed, now closed, and the
    pending counter is 0; a [Commit] called in that state returns at once
    and leaves the whole state as it is: nothing is flushed, no
    transaction is begun and no metric is written. *)
Theorem Commit_after_CommitAndStop (t : batchTx) (h : bolt.Tx)
  (Htx : tx t = Some h) (Ho : bolt.tx_open h = true)
  (Hl : locked t = false)
  (Hf : next_flush_ok (db (backend t)) = true) :
  exists t1,
    CommitAndStop t = Done t1
    /\ tx t1 = Some (bolt.close h)
    /\ bolt.tx_id (bolt.close h) = bolt.tx_id h
    /\ bolt.tx_open (bolt.close h) = false
    /\ pending t1 = 0
    /\ Commit t1 = Done t1.
Proof.
  destruct (CommitAndStop_returns t h Htx Ho Hl Hf) as (d & _ & _ & _ & H).
  eexists. split; [exact H|]. repeat split.
  set (t1 := set_locked (after_flush t h d) false).
  unfold Commit, Lock. cbn [locked t1 set_locked bind].
  set (t2 := set_locked t1 true).
  rewrite (commit_nothing_to_do t2 (bolt.close h) eq_refl eq_refl).
  cbn [bind].
  destruct (Z_lt_ge_dec (pending t2) (batchLimit (backend t2))) as [Hlt|Hge].
  - rewrite (Unlock_below t2 Hlt eq_refl). reflexivity.
  - rewrite (Unlock_above t2 t2 Hge eq_refl
               (commit_nothing_to_do t2 (bolt.close h) eq_refl eq_refl)).
    reflexivity.
Qed.

Lemma Commit_after_CommitAndStop_witness :
  locked (set_locked (example_state 10 0 [bolt.FlushLeaves 32768 3]) false)
  = false
  /\ exists t1,
       CommitAndStop
         (set_locked (example_state 10 0 [bolt.FlushLeaves 32768 3]) false)
       = Done t1
       /\ open_handle t1 = false
       /\ Commit t1 = Done t1.
Proof.
  split; [reflexivity|].
  destruct (Commit_after_CommitAndStop
              (set_locked (example_state 10 0 [bolt.FlushLeaves 32768 3])
                 false) _ eq_refl eq_refl eq_refl eq_refl)
    as (t1 & H & H1 & _ & _ & _ & H2).
  exists t1. split; [exact H|]. split; [|exact H2].
  unfold open_handle. rewrite H1. reflexivity.
Defined.

(** C2 as amended: when [Commit] is called with a transaction handle in
    place (open or not), pending == 0 and the lock free, it is a no-op: it
    returns the state it was called in, so nothing was flushed, the commit
    counter, the size and the size-in-use metrics are unchanged and the
    handle is the same.  (Without a handle, as in the constructor,
    [Commit] begins a transaction and publishes the size metrics.) *)
Theorem Commit_nothing_pending (t : batchTx) (h : bolt.Tx)
  (Htx : tx t = Some h) (Hp : pending t = 0) (Hl : locked t = false) :
  exists t',
    Commit t = Done t'
    /\ t' = t
    /\ flushes t' = flushes t
    /\ commits (backend t') = commits (backend t)
    /\ size (backend t') = size (backend t)
    /\ sizeInUse (backend t') = sizeInUse (backend t)
    /\ tx t' = tx t.
Proof.
  exists t. split; [|repeat split].
  unfold Commit, Lock. rewrite Hl. cbn [bind].
  set (t2 := set_locked t true).
  rewrite (commit_nothing_to_do t2 h Htx Hp). cbn [bind].
  assert (E1 : set_locked t2 false = t).
  { destruct t; cbn in *; now subst. }
  assert (E2 : set_locked (set_pending t2 0) false = t).
  { destruct t; cbn in *; now subst. }
  destruct (Z_lt_ge_dec (pending t2) (batchLimit (backend t2))) as [Hlt|Hge].
  - rewrite (Unlock_below t2 Hlt eq_refl). now rewrite E1.
  - rewrite (Unlock_above t2 t2 Hge eq_refl
               (commit_nothing_to_do t2 h Htx Hp)).
    now rewrite E2.
Qed.

Lemma Commit_nothing_pending_witness :
  pending (set_locked (example_state 0 0 []) false) = 0
  /\ locked (set_locked (example_state 0 0 []) false) = false
  /\ exists t',
       Commit (set_locked (example_state 0 0 []) false) = Done t'
       /\ t' = set_locked (example_state 0 0 []) false.
Proof.
  split; [reflexivity|]. split; [reflexivity|].
  destruct (Commit_nothing_pending (set_locked (example_state 0 0 []) false)
              _ eq_refl eq_refl eq_refl) as (t' & H & H1 & _).
  exists t'. split; assumption.
Defined.

(** C2 as stated fails in the state the constructor calls [Commit] in: no
    handle yet, pending == 0, no stop requested.  There [Commit] is not a
    no-op: it installs a transaction handle and writes the size and
    size-in-use metrics. *)
Lemma Commit_without_handle_not_noop :
  let t := batchTx_literal (example_backend 10 []) in
  pending t = 0
  /\ exists t',
       Commit t = Done t'
       /\ tx t' <> tx t
       /\ size (backend t') <> size (backend t)
       /\ sizeInUse (backend t') <> sizeInUse (backend t).
Proof.
  cbv zeta. split; [reflexivity|].
  eexists. split; [reflexivity|].
  repeat split; cbn; discriminate.
Qed.

(** C9: the constructor starts from a struct whose handle is nil, and its
    [Commit] (on an opened store with no writer) flushes nothing and
    leaves the commit counter alone, yet begins the first write
    transaction and publishes the size and size-in-use metrics: they are
    first written before any commit has occurred. *)
Theorem newBatchTx_spec (b : Backend)
  (Ho : bolt.db_opened (db b) = true)
  (Hw : bolt.db_rwlock (db b) = false) :
  tx (batchTx_literal b) = None
  /\ newBatchTx b = Commit (batchTx_literal b)
  /\ exists t,
       newBatchTx b = Done t
       /\ flushes t = bolt.db_flushes (db b)
       /\ commits (backend t) = commits b
       /\ (exists h, tx t = Some h /\ bolt.tx_open h = true
                     /\ bolt.tx_id h = bolt.db_txid (db b) + 1)
       /\ bolt.db_rwlock (db (backend t)) = true
       /\ published t
       /\ size (backend t) = bolt.db_size (db b)
       /\ sizeInUse (backend t)
          = wrap64 (bolt.db_size (db b)
                    - wrap64 (bolt.db_FreePageN (db b)
                              * bolt.db_PageSize (db b)))
       /\ pending t = 0
       /\ locked t = false.
Proof.
  split; [reflexivity|]. split; [reflexivity|].
  set (t0 := set_locked (batchTx_literal b) true).
  set (t1 := after_begin t0 (db b)).
  assert (Hc : commit false t0 = Done t1).
  { unfold commit. cbn [tx t0 set_locked batchTx_literal].
    now apply (begin_new_tx_returns t0). }
  exists (set_locked t1 false). split.
  - unfold newBatchTx, Commit, Lock. cbv zeta.
    cbn [locked batchTx_literal bind]. fold t0. rewrite Hc. cbn [bind].
    destruct (Z_lt_ge_dec (pending t1) (batchLimit (backend t1)))
      as [Hlt|Hge].
    + now rewrite (Unlock_below t1 Hlt eq_refl).
    + now rewrite (Unlock_above t1 t1 Hge eq_refl
                     (commit_nothing_to_do t1 _ eq_refl eq_refl)).
  - repeat split.
    + eexists. cbn. repeat split.
    + destruct (after_begin_published t0 (db b)) as (h & H).
      exists h. exact H.
Qed.

Lemma newBatchTx_spec_witness :
  bolt.db_opened (db (example_backend 3 [])) = true
  /\ bolt.db_rwlock (db (example_backend 3 [])) = false
  /\ exists t,
       newBatchTx (example_backend 3 []) = Done t
       /\ flushes t = 0 /\ commits (backend t) = 0
       /\ size (backend t) = 16384 /\ sizeInUse (backend t) = 12288.
Proof.
  split; [reflexivity|]. split; [reflexivity|].
  destruct (newBatchTx_spec (example_backend 3 []) eq_refl eq_refl)
    as (_ & _ & t & H & H1 & H2 & _ & _ & _ & H3 & H4 & _).
  exists t. repeat split; assumption.
Defined.

(** C1 as amended: [Unlock] flushes if and only if the pending counter has
    reached the threshold and is not zero.
    - With pending >= threshold and pending <> 0 (open handle, the store
      open and its flush going through) it runs a full commit-and-reopen
      cycle before it releases the lock: one flush, the commit counter one
      higher, pending reset to 0, a new open transaction in the handle
      field.
    - With pending >= threshold and pending == 0, which a threshold of 0
      or less allows, the [commit] it calls has nothing to do: the lock is
      released and nothing else changes.
    - With pending < threshold the lock is released and the handle, the
      pending counter and the commit counter are unchanged. *)
Theorem Unlock_spec (t : batchTx) (Hl : locked t = true) :
  (pending t >= batchLimit (backend t) -> pending t <> 0 ->
   forall h, tx t = Some h -> bolt.tx_open h = true ->
   next_flush_ok (db (backend t)) = true ->
   bolt.db_opened (db (backend t)) = true ->
   min_int64 <= commits (backend t) < max_int64 ->
   exists t',
     Unlock t = Done t'
     /\ flushes t' = flushes t + 1
     /\ commits (backend t') = commits (backend t) + 1
     /\ pending t' = 0
     /\ (exists h', tx t' = Some h' /\ bolt.tx_open h' = true
                    /\ bolt.tx_id h' = bolt.tx_id h + 1)
     /\ published t'
     /\ locked t' = false)
  /\ (pending t >= batchLimit (backend t) -> pending t = 0 ->
      tx t <> None ->
      Unlock t = Done (set_locked t false))
  /\ (pending t < batchLimit (backend t) ->
      Unlock t = Done (set_locked t false))
  /\ (forall t', t' = set_locked t false ->
      tx t' = tx t /\ pending t' = pending t
      /\ commits (backend t') = commits (backend t)
      /\ flushes t' = flushes t /\ locked t' = false).
Proof.
  split; [|split; [|split]].
  - intros Hge Hp h Htx Ho Hf Hdb Hc.
    destruct (commit_flushes false t h Htx Ho Hf (or_introl Hp))
      as (d & _ & H1 & H2 & H3 & H4 & Hcm).
    set (t1 := after_flush t h d) in *.
    assert (Hb : begin_new_tx false t1 = Done (after_begin t1 d)).
    { apply (begin_new_tx_returns t1); cbn; congruence. }
    rewrite Hb in Hcm.
    exists (set_locked (set_pending (after_begin t1 d) 0) false).
    split; [now apply Unlock_above|].
    unfold flushes. cbn. repeat split; auto.
    + apply wrap64_id. unfold min_int64, max_int64 in *. lia.
    + eexists. split; [reflexivity|]. split; [reflexivity|].
      cbn. lia.
    + destruct (after_begin_published t1 d) as (h' & H).
      exists h'. exact H.
  - intros Hge Hp Hn. destruct (tx t) as [h|] eqn:Htx; [|congruence].
    rewrite (Unlock_above t t Hge Hl (commit_nothing_to_do t h Htx Hp)).
    f_equal. destruct t; cbn in *; now subst.
  - intros Hlt. now apply Unlock_below.
  - intros t' ->. cbn. repeat split.
Qed.

Lemma Unlock_spec_witness :
  locked (example_state 3 3 [bolt.FlushLeaves 32768 3]) = true
  /\ (exists t',
        Unlock (example_state 3 3 [bolt.FlushLeaves 32768 3]) = Done t'
        /\ commits (backend t') = 1 /\ pending t' = 0 /\ flushes t' = 1)
  /\ Unlock (example_state 3 2 [])
     = Done (set_locked (example_state 3 2 []) false).
Proof.
  split; [reflexivity|]. split.
  - destruct (Unlock_spec (example_state 3 3 [bolt.FlushLeaves 32768 3])
                eq_refl) as [H _].
    assert (Hc : min_int64 <= 0 < max_int64)
      by (unfold min_int64, max_int64; lia).
    assert (Hge : pending (example_state 3 3 [bolt.FlushLeaves 32768 3])
                  >= batchLimit
                       (backend
                          (example_state 3 3 [bolt.FlushLeaves 32768 3])))
      by (vm_compute; discriminate).
    assert (Hp : pending (example_state 3 3 [bolt.FlushLeaves 32768 3]) <> 0)
      by (vm_compute; discriminate).
    destruct (H Hge Hp _ eq_refl eq_refl eq_refl eq_refl Hc)
      as (t' & H0 & H1 & H2 & H3 & _).
    exists t'. repeat split; assumption.
  - destruct (Unlock_spec (example_state 3 2 []) eq_refl) as (_ & _ & H & _).
    apply H. vm_compute. reflexivity.
Defined.

(** C1 as stated fails for a threshold of 0: right after the constructor,
    with the lock taken, the pending counter (0) has reached the
    threshold (0), yet [Unlock] flushes nothing and the commit counter
    stays as it is. *)
Lemma Unlock_threshold_reached_without_commit :
  exists t t',
    (t0 <- newBatchTx (example_backend 0 []) ;; Lock t0) = Done t
    /\ pending t >= batchLimit (backend t)
    /\ Unlock t = Done t'
    /\ flushes t' = flushes t
    /\ commits (backend t') = commits (backend t)
    /\ commits (backend t') <> commits (backend t) + 1.
Proof.
  eexists. eexists. split; [reflexivity|].
  split; [vm_compute; discriminate|]. split; [reflexivity|].
  repeat split; vm_compute; discriminate.
Qed.

(** ** Creating buckets *)

Lemma bytes_lt_neq_l (a b : bytes) : bytes_lt a b -> bytes_eqb a b = false.
Proof. unfold bytes_lt, bytes_eqb. now intros ->. Qed.

(** In an ordered key space a name that is found occurs exactly once. *)
Lemma named_once {V : Type} (name : bytes) (l : bolt.table V) (v : V) :
  bolt.ordered l -> bolt.lookup name l = Some v ->
  List.length (filter (bytes_eqb name) (bolt.keys_of l)) = 1%nat.
Proof.
  induction l as [|[k' v'] l IH]; simpl; [discriminate|].
  intros Ho. pose proof (ordered_inv _ _ _ Ho) as [Ho' Hall].
  destruct (bytes_eqb name k') eqn:E.
  - intros _. apply bytes_eqb_eq in E. subst k'. simpl. f_equal.
    fold (bolt.keys_of l). unfold bolt.keys_of.
    rewrite filter_none; [reflexivity|].
    apply Forall_forall. intros k Hk.
    apply in_map_iff in Hk as [a [<- Ha]].
    rewrite Forall_forall in Hall. now apply bytes_lt_neq_l, Hall.
  - intros H. now apply IH.
Qed.

Lemma UnsafeCreateBucket_Done (name : bytes) (t t1 : batchTx) :
  UnsafeCreateBucket name t = Done t1 ->
  exists h h1,
    tx t = Some h /\ tx t1 = Some h1
    /\ bolt.tx_open h1 = true
    /\ (exists b, bolt.lookup name (bolt.tx_root h1) = Some b)
    /\ (bolt.ordered (bolt.tx_root h) -> bolt.ordered (bolt.tx_root h1))
    /\ name <> []
    /\ backend t1 = backend t /\ locked t1 = locked t
    /\ pending t1 = wrap64 (pending t + 1).
Proof.
  unfold UnsafeCreateBucket, bolt.Tx_CreateBucket.
  destruct (tx t) as [h|] eqn:Htx; [|discriminate].
  destruct (bolt.tx_open h) eqn:Ho; cbn; [|discriminate].
  destruct name as [|x name]; cbn; [discriminate|].
  destruct (bolt.lookup (x :: name) (bolt.tx_root h)) as [b|] eqn:Hlook;
    cbn; intros H; inversion H; subst t1; cbn.
  - exists h, h. repeat split; eauto. discriminate.
  - eexists h, _. split; [reflexivity|]. split; [reflexivity|].
    cbn. repeat split; auto.
    + eexists. apply lookup_insert.
    + apply insert_ordered.
    + discriminate.
Qed.

(** C8: [UnsafeCreateBucket] is idempotent.  A store error other than
    "bucket already exists" ends the process, "bucket already exists" is
    swallowed.  So once a call for a name has returned, a second call for
    the same name returns too and leaves the buckets as they were, with
    exactly one bucket of that name; and a first call for a non-empty name
    on an open handle does return.  Every call that returns, the one for
    an existing bucket included, adds 1 to the pending counter. *)
Theorem UnsafeCreateBucket_idempotent (t : batchTx) (h : bolt.Tx)
  (name : bytes)
  (Htx : tx t = Some h)
  (Hord : bolt.ordered (bolt.tx_root h))
  (Hp : min_int64 <= pending t /\ pending t + 2 <= max_int64) :
  (forall h' e,
      bolt.Tx_CreateBucket h name = (h', Some e) -> e <> ErrBucketExists ->
      UnsafeCreateBucket name t = Fatal (cannot_create_bucket e))
  /\ (forall h',
      bolt.Tx_CreateBucket h name = (h', Some ErrBucketExists) ->
      UnsafeCreateBucket name t = Done (incr_pending (set_tx t (Some h')))
      /\ h' = h)
  /\ (bolt.tx_open h = true -> name <> [] ->
      returns (UnsafeCreateBucket name t) = true)
  /\ (forall t1,
      UnsafeCreateBucket name t = Done t1 ->
      pending t1 = pending t + 1
      /\ buckets_named t1 name = 1%nat
      /\ exists t2,
           UnsafeCreateBucket name t1 = Done t2
           /\ tx t2 = tx t1
           /\ buckets_named t2 name = 1%nat
           /\ pending t2 = pending t1 + 1).
Proof.
  assert (Hw1 : wrap64 (pending t + 1) = pending t + 1)
    by (apply wrap64_id; unfold min_int64, max_int64 in *; lia).
  assert (Hw2 : wrap64 (pending t + 1 + 1) = pending t + 1 + 1)
    by (apply wrap64_id; unfold min_int64, max_int64 in *; lia).
  split; [|split; [|split]].
  - intros h' e Hc Hne. unfold UnsafeCreateBucket. rewrite Htx, Hc.
    destruct e; try reflexivity. congruence.
  - intros h' Hc. split.
    + unfold UnsafeCreateBucket. now rewrite Htx, Hc.
    + unfold bolt.Tx_CreateBucket in Hc.
      destruct (bolt.tx_open h); cbn in Hc; [|now inversion Hc].
      destruct name; [now inversion Hc|].
      destruct (bolt.lookup _ _); now inversion Hc.
  - intros Ho Hn. unfold UnsafeCreateBucket, bolt.Tx_CreateBucket.
    rewrite Htx, Ho. cbn. destruct name as [|x name]; [congruence|].
    now destruct (bolt.lookup _ _).
  - intros t1 H1.
    destruct (UnsafeCreateBucket_Done _ _ _ H1)
      as (h0 & h1 & Htx0 & Htx1 & Ho1 & [b Hb] & Hord1 & Hn & Hbk & _ & Hp1).
    assert (h0 = h) by congruence. subst h0. specialize (Hord1 Hord).
    assert (Hcount : buckets_named t1 name = 1%nat).
    { unfold buckets_named. rewrite Htx1. now apply (named_once name _ b). }
    split; [congruence|]. split; [exact Hcount|].
    assert (Hc : bolt.Tx_CreateBucket h1 name = (h1, Some ErrBucketExists)).
    { unfold bolt.Tx_CreateBucket. rewrite Ho1. cbn.
      destruct name; [congruence|]. now rewrite Hb. }
    exists (incr_pending (set_tx t1 (Some h1))). split.
    + unfold UnsafeCreateBucket. now rewrite Htx1, Hc.
    + cbn. split; [now rewrite Htx1|]. split.
      * unfold buckets_named. cbn. now apply (named_once name _ b).
      * rewrite Hp1, Hw1. exact Hw2.
Qed.

Lemma UnsafeCreateBucket_idempotent_witness :
  tx (example_state 10 4 []) <> None
  /\ forall t1,
       UnsafeCreateBucket (bs "key") (example_state 10 4 []) = Done t1 ->
       pending t1 = 5 /\ buckets_named t1 (bs "key") = 1%nat.
Proof.
  split; [discriminate|].
  assert (Hp : min_int64 <= pending (example_state 10 4 [])
               /\ pending (example_state 10 4 []) + 2 <= max_int64)
    by (split; vm_compute; discriminate).
  destruct (UnsafeCreateBucket_idempotent (example_state 10 4 []) _
              (bs "key") eq_refl eq_refl Hp) as (_ & _ & _ & H).
  intros t1 H1. destruct (H t1 H1) as (Ha & Hb & _).
  split; assumption.
Defined.

(** ** Iterating over a bucket *)

Lemma ordered_prefix {V : Type} (l1 l2 : bolt.table V) :
  bolt.ordered (l1 ++ l2) -> bolt.ordered l1.
Proof.
  induction l1 as [|[k v] l1 IH]; simpl; intros Ho; [reflexivity|].
  apply ordered_inv in Ho as [Ho Hall].
  apply ordered_cons; [now apply IH|].
  rewrite Forall_forall in *. intros a Ha. apply Hall.
  apply in_or_app. now left.
Qed.

(** The scan calls the visitor on the pairs in the stored order, up to and
    including the first pair on which it fails; recording the calls does
    not change what the visitor does. *)
Lemma for_each_recording {S : Type}
  (visitor : bytes -> bytes -> S -> S * option error)
  (l : bolt.table bytes) :
  forall (s : S) (log0 : list (bytes * bytes)),
  exists s' seen err,
    bolt.for_each l (recording visitor) (s, log0) = ((s', log0 ++ seen), err)
    /\ bolt.for_each l visitor s = (s', err)
    /\ (exists rest, l = seen ++ rest)
    /\ match err with
       | None => seen = l
       | Some e =>
           exists pre k v s1,
             seen = pre ++ [(k, v)]
             /\ bolt.for_each pre visitor s = (s1, None)
             /\ visitor k v s1 = (s', Some e)
       end.
Proof.
  induction l as [|[k v] l IH]; intros s log0.
  - exists s, [], None. cbn. rewrite app_nil_r.
    repeat split. now exists [].
  - cbn [bolt.for_each]. unfold recording at 1. cbn [fst snd].
    destruct (visitor k v s) as [s1 [e|]] eqn:Hv.
    + exists s1, [(k, v)], (Some e). repeat split.
      * now exists l.
      * exists [], k, v, s. repeat split. exact Hv.
    + destruct (IH s1 (log0 ++ [(k, v)]))
        as (s' & seen & err & H1 & H2 & [rest H3] & H4).
      exists s', ((k, v) :: seen), err.
      rewrite H1, <- app_assoc. repeat split; auto.
      * exists rest. cbn. now rewrite H3 at 1.
      * destruct err as [e|].
        -- destruct H4 as (pre & k' & v' & s2 & E1 & E2 & E3).
           exists ((k, v) :: pre), k', v', s2. repeat split; auto.
           ++ cbn. now rewrite E1.
           ++ cbn. now rewrite Hv.
        -- now rewrite H4.
Qed.

(** C6: [UnsafeForEach] on a bucket that does not exist returns nil at
    once, without a call of the visitor.  On an existing bucket it calls
    the visitor on the pairs in ascending key order; when the visitor
    returns an error on a pair, that pair is the last one visited and that
    error is what [UnsafeForEach] returns (on the keys "a", "b", "c" with
    a visitor failing on "b": exactly "a" and "b" are visited and the
    visitor's error comes back).  No other method of the interface returns
    an error to its caller: [UnsafeForEach] never ends the process through
    [plog.Fatalf], while a missing bucket is fatal in put, range and
    delete. *)
Theorem UnsafeForEach_spec :
  (forall (S : Type) (visitor : bytes -> bytes -> S -> S * option error)
          (t : batchTx) (h : bolt.Tx) (name : bytes) (s : S),
      tx t = Some h -> bolt.tx_open h = true ->
      bolt.lookup name (bolt.tx_root h) = None ->
      UnsafeForEach name visitor t s = Done (s, None)
      /\ UnsafeForEach name (recording visitor) t (s, [])
         = Done ((s, []), None))
  /\ (forall (S : Type) (visitor : bytes -> bytes -> S -> S * option error)
             (t : batchTx) (name : bytes) (b : bolt.Bucket) (s : S),
      bucket_of t name = Some b -> bolt.ordered (bolt.pairs b) ->
      exists s' visited err,
        UnsafeForEach name (recording visitor) t (s, [])
        = Done ((s', visited), err)
        /\ UnsafeForEach name visitor t s = Done (s', err)
        /\ (exists rest, bolt.pairs b = visited ++ rest)
        /\ StronglySorted bytes_lt (map fst visited)
        /\ match err with
           | None => visited = bolt.pairs b
           | Some e =>
               exists before k v s1,
                 visited = before ++ [(k, v)]
                 /\ bolt.for_each before visitor s = (s1, None)
                 /\ visitor k v s1 = (s', Some e)
           end)
  /\ UnsafeForEach (bs "key") (recording fails_on_b) (example_state 10 4 [])
       (tt, [])
     = Done ((tt, [(bs "a", bs "1"); (bs "b", bs "2")]),
             Some (errorString "stop"))
  /\ (forall (S : Type) (c : call S) (t t' : batchTx) (s s' : S) (e : error),
      invoke c t s = Done (t', s', ret_error (Some e)) ->
      exists name visitor, c = call_UnsafeForEach name visitor)
  /\ (forall (S : Type) (visitor : bytes -> bytes -> S -> S * option error)
             (t : batchTx) (name : bytes) (s : S) (f : fatal),
      UnsafeForEach name visitor t s <> Fatal f)
  /\ (forall (t : batchTx) (h : bolt.Tx) (name key value endKey : bytes)
             (seq : bool) (limit : Z),
      tx t = Some h -> bolt.tx_open h = true ->
      bolt.lookup name (bolt.tx_root h) = None ->
      unsafePut name key value seq t = Fatal bucket_does_not_exist
      /\ UnsafeRange name key endKey limit t = Fatal bucket_does_not_exist
      /\ UnsafeDelete name key t = Fatal bucket_does_not_exist).
Proof.
  repeat apply conj.
  - intros S visitor t h name s Htx Ho Hl.
    unfold UnsafeForEach, bolt.Tx_Bucket. now rewrite Htx, Ho, Hl.
  - intros S visitor t name b s Hb Hord.
    destruct (bucket_of_inv _ _ _ Hb) as (h & Htx & Ho & Hl).
    destruct (for_each_recording visitor (bolt.pairs b) s [])
      as (s' & seen & err & H1 & H2 & [rest H3] & H4).
    exists s', seen, err.
    unfold UnsafeForEach, bolt.Tx_Bucket, bolt.Bucket_ForEach.
    rewrite Htx, Ho, Hl. cbn [bind]. rewrite H1, H2.
    repeat split; auto.
    + now exists rest.
    + apply keys_sorted. apply (ordered_prefix seen rest).
      now rewrite <- H3.
  - reflexivity.
  - intros S c t t' s s' e H.
    destruct c; cbn [invoke] in H;
      try (match type of H with
           | bind ?r _ = _ => destruct r; cbn [bind] in H; discriminate
           end).
    now eexists _, _.
  - intros S visitor t name s f. unfold UnsafeForEach, bolt.Tx_Bucket.
    destruct (tx t) as [h|]; [|discriminate].
    destruct (bolt.tx_open h); cbn [bind]; [|discriminate].
    destruct (bolt.lookup name (bolt.tx_root h)); discriminate.
  - intros t h name key value endKey seq limit Htx Ho Hl.
    unfold unsafePut, UnsafeRange, UnsafeDelete, bolt.Tx_Bucket.
    rewrite Htx, Ho, Hl. repeat split.
Qed.

(** ** Every call of the interface *)

(** The concrete state used in the examples is one the constructor and
    four mutations lead to. *)
Lemma example_run_reaches :
  example_run 10 [] = Done (example_state 10 4 []).
Proof. reflexivity. Qed.

Lemma unsafePut_Done (bucketName key value : bytes) (seq : bool)
  (t t' : batchTx) :
  unsafePut bucketName key value seq t = Done t' ->
  backend t' = backend t /\ locked t' = locked t
  /\ pending t' = wrap64 (pending t + 1)
  /\ tx t <> None /\ tx t' <> None.
Proof.
  unfold unsafePut.
  destruct (tx t) as [h|]; [|discriminate].
  destruct (bolt.Tx_Bucket h bucketName) as [[b|]| | |]; cbn [bind];
    try discriminate.
  destruct (bolt.Bucket_Put _ key value) as [b' [e|]]; [discriminate|].
  intros H. inversion H. cbn. repeat split; discriminate.
Qed.

Lemma UnsafeDelete_Done (bucketName key : bytes) (t t' : batchTx) :
  UnsafeDelete bucketName key t = Done t' ->
  backend t' = backend t /\ locked t' = locked t
  /\ pending t' = wrap64 (pending t + 1)
  /\ tx t <> None /\ tx t' <> None.
Proof.
  unfold UnsafeDelete.
  destruct (tx t) as [h|]; [|discriminate].
  destruct (bolt.Tx_Bucket h bucketName) as [[b|]| | |]; cbn [bind];
    try discriminate.
  intros H. inversion H. cbn. repeat split; discriminate.
Qed.

Lemma Unlock_idle (t t' : batchTx) :
  tx t <> None -> pending t = 0 -> Unlock t = Done t' ->
  t' = set_locked t false.
Proof.
  intros Hn Hp H. destruct (tx t) as [h|] eqn:Htx; [|congruence].
  apply Unlock_Done in H as [(_ & _ & ->)|(_ & t1 & Hc & _ & ->)];
    [reflexivity|].
  rewrite (commit_nothing_to_do t h Htx Hp) in Hc. inversion Hc. subst t1.
  destruct t; cbn in *; now subst.
Qed.

(** What a returning [Unlock] has done. *)
Lemma Unlock_effect (t t' : batchTx) :
  Unlock t = Done t' ->
  ((flushes t' = flushes t
    /\ commits (backend t') = commits (backend t)
    /\ (pending t' = pending t \/ (pending t' = 0 /\ tx t = None)))
   \/ (flushes t' = flushes t + 1
       /\ commits (backend t') = wrap64 (commits (backend t) + 1)
       /\ pending t' = 0))
  /\ ((backend t' = backend t /\ tx t' = tx t)
      \/ (published t' /\ tx t' <> tx t)).
Proof.
  intros H.
  apply Unlock_Done in H as [(_ & _ & ->)|(_ & t1 & Hc & _ & ->)].
  - split; left; cbn; auto.
  - split.
    + destruct (commit_counts _ _ _ Hc)
        as [(H1 & H2 & H3 & H4)|(H1 & H2 & H3 & _)].
      * left. unfold flushes in *. cbn. repeat split; auto.
        destruct H4 as [H4|(H4 & _)]; [right; auto | left; auto].
      * right. unfold flushes in *. cbn. auto.
    + destruct (commit_sizes _ _ _ Hc) as [(_ & _ & [E|E])|(_ & H1 & H2)].
      * discriminate.
      * subst t1. left. cbn. auto.
      * right. split; [|exact H2].
        destruct H1 as (h & H1). exists h. exact H1.
Qed.

Lemma published_unlocked (t : batchTx) :
  published t -> published (set_locked t false).
Proof. intros (h & H). exists h. exact H. Qed.

(** What a returning [Commit] (stop = false) or [CommitAndStop]
    (stop = true) has done. *)
Lemma locked_commit_effect (stop : bool) (t t' : batchTx) :
  (t0 <- Lock t ;; t1 <- commit stop t0 ;; Unlock t1) = Done t' ->
  ((flushes t' = flushes t
    /\ commits (backend t') = commits (backend t)
    /\ (pending t' = pending t \/ (pending t' = 0 /\ tx t = None)))
   \/ (flushes t' = flushes t + 1
       /\ commits (backend t') = wrap64 (commits (backend t) + 1)
       /\ pending t' = 0))
  /\ ((size (backend t') = size (backend t)
       /\ sizeInUse (backend t') = sizeInUse (backend t))
      \/ (published t' /\ tx t' <> tx t))
  /\ (stop = true -> tx t <> None ->
      flushes t' = flushes t + 1
      /\ size (backend t') = size (backend t)
      /\ sizeInUse (backend t') = sizeInUse (backend t)).
Proof.
  unfold Lock. destruct (locked t); [discriminate|]. cbn [bind].
  set (t0 := set_locked t true).
  destruct (commit stop t0) as [t1| | |] eqn:Hc; cbn [bind];
    try discriminate.
  intros Hu.
  pose proof (commit_frame _ _ _ Hc) as (_ & _ & Hn1 & Hn2 & _).
  destruct (commit_counts _ _ _ Hc)
    as [(F1 & F2 & F3 & [Hnil|(Hp & Hs & E)])|(F1 & F2 & F3 & Hn & Hps)].
  - (* there was no handle *)
    change (tx t0) with (tx t) in *.
    destruct (Unlock_effect _ _ Hu) as [Hcnt Hsz].
    change (flushes t0) with (flushes t) in *.
    change (backend t0) with (backend t) in *.
    change (pending t0) with (pending t) in *.
    split; [|split].
    + destruct Hcnt as [(U1 & U2 & U3)|(U1 & U2 & U3)].
      * left. repeat split; try congruence.
        destruct U3 as [U3|(U3 & _)]; [left; congruence | right; auto].
      * right. repeat split; congruence.
    + destruct (commit_sizes _ _ _ Hc) as [(S1 & S2 & _)|(Hs & P1 & P2)].
      * destruct Hsz as [(B & T)|(P & T)].
        -- left. rewrite B. auto.
        -- right. split; [exact P|].
           destruct P as (h & P & _). rewrite Hnil, P. discriminate.
      * right. destruct Hsz as [(B & T)|(P & T)].
        -- split.
           ++ destruct P1 as (h & P1). exists h. rewrite B, T. exact P1.
           ++ rewrite T. exact P2.
        -- split; [exact P|].
           destruct P as (h & P & _). rewrite Hnil, P. discriminate.
    + intros _ Hn. congruence.
  - (* nothing to do *)
    subst t1.
    assert (Hn : tx t0 <> None).
    { destruct (commit_Done _ _ _ Hc) as [H|[H|H]].
      - destruct H as (h & H & _). congruence.
      - destruct H as [E H]. rewrite Hs in H.
        apply begin_new_tx_Done in H as [[H _]|(_ & _ & _ & H)];
          [discriminate|].
        apply (f_equal tx) in H. rewrite E in H. discriminate.
      - destruct H as (h & d & H & _). congruence. }
    rewrite (Unlock_idle _ _ Hn Hp Hu).
    split; [|split].
    + left. cbn. auto.
    + left. cbn. auto.
    + intros E. congruence.
  - (* one flush *)
    change (tx t0) with (tx t) in *.
    rewrite (Unlock_idle _ _ (Hn1 Hn) F3 Hu).
    change (flushes t0) with (flushes t) in *.
    change (backend t0) with (backend t) in *.
    split; [|split].
    + right. cbn. auto.
    + destruct (commit_sizes _ _ _ Hc) as [(S1 & S2 & _)|(Hs & P1 & P2)].
      * left. cbn. auto.
      * right. split; [now apply published_unlocked | exact P2].
    + intros -> _.
      destruct (commit_sizes _ _ _ Hc) as [(S1 & S2 & _)|(Hs & _)];
        [|discriminate].
      cbn. auto.
Qed.

Ltac invert_invoke H :=
  cbn [invoke] in H;
  match type of H with
  | bind ?r _ = Done _ =>
      let E := fresh "E" in
      destruct r eqn:E; cbn [bind] in H; try discriminate;
      inversion H; subst; clear H
  end.

(** C3 as stated fails twice.  The constructor's [Commit] changes the size
    and size-in-use metrics although nothing is flushed and the commit
    counter stays at 0.  And [CommitAndStop] commits (one flush, the
    counter one higher) without updating the size: the store has grown to
    32768 bytes, the published size is still 16384. *)
Lemma metrics_not_tied_to_commit :
  (exists t,
      newBatchTx (example_backend 10 []) = Done t
      /\ flushes t = bolt.db_flushes (db (example_backend 10 []))
      /\ commits (backend t) = commits (example_backend 10 [])
      /\ size (backend t) <> size (example_backend 10 [])
      /\ sizeInUse (backend t) <> sizeInUse (example_backend 10 []))
  /\ (exists t t',
      (t0 <- example_run 10 [bolt.FlushLeaves 32768 3] ;; Unlock t0) = Done t
      /\ CommitAndStop t = Done t'
      /\ flushes t' = flushes t + 1
      /\ commits (backend t') = commits (backend t) + 1
      /\ size (backend t') = size (backend t)
      /\ bolt.db_size (db (backend t')) = 32768
      /\ size (backend t') = 16384).
Proof.
  split.
  - eexists. split; [reflexivity|]. repeat split; vm_compute; discriminate.
  - eexists. eexists. split; [reflexivity|]. split; [reflexivity|].
    repeat split.
Qed.

(** C4: for every call of the interface that returns, made in a state
    where a non-zero pending counter comes with a handle (as in every
    state after the constructor) and the counter is in [0, max),
    - if the call flushed, it is [Unlock], [Commit] or [CommitAndStop],
      it flushed once, and the pending counter is 0 afterwards;
    - if the pending counter went from non-zero to 0, the call flushed;
    - if the call did not flush, the pending counter is unchanged or one
      higher.
    So the counter is reset exactly by a commit that flushes. *)
Theorem pending_reset_iff_flushed (S : Type) (c : call S)
  (t t' : batchTx) (s s' : S) (r : returned)
  (Hwf : tx t = None -> pending t = 0)
  (Hp : 0 <= pending t < max_int64)
  (H : invoke c t s = Done (t', s', r)) :
  (flushes t' <> flushes t ->
     runs_commit c = true /\ flushes t' = flushes t + 1 /\ pending t' = 0)
  /\ (pending t <> 0 -> pending t' = 0 -> flushes t' = flushes t + 1)
  /\ (flushes t' = flushes t ->
      pending t' = pending t \/ pending t' = pending t + 1).
Proof.
  assert (Hw : wrap64 (pending t + 1) = pending t + 1)
    by (apply wrap64_id; unfold min_int64, max_int64 in *; lia).
  assert (Hmut : backend t' = backend t ->
                 pending t' = wrap64 (pending t + 1) ->
            (flushes t' <> flushes t ->
               runs_commit c = true /\ flushes t' = flushes t + 1
               /\ pending t' = 0)
            /\ (pending t <> 0 -> pending t' = 0 ->
                flushes t' = flushes t + 1)
            /\ (flushes t' = flushes t ->
                pending t' = pending t \/ pending t' = pending t + 1)).
  { intros E1 E2. unfold flushes. rewrite E1, E2, Hw.
    repeat split; intros; try congruence; try lia. }
  assert (Hcommit :
            ((flushes t' = flushes t
              /\ commits (backend t') = commits (backend t)
              /\ (pending t' = pending t \/ (pending t' = 0 /\ tx t = None)))
             \/ (flushes t' = flushes t + 1
                 /\ commits (backend t') = wrap64 (commits (backend t) + 1)
                 /\ pending t' = 0)) ->
            runs_commit c = true ->
            (flushes t' <> flushes t ->
               runs_commit c = true /\ flushes t' = flushes t + 1
               /\ pending t' = 0)
            /\ (pending t <> 0 -> pending t' = 0 ->
                flushes t' = flushes t + 1)
            /\ (flushes t' = flushes t ->
                pending t' = pending t \/ pending t' = pending t + 1)).
  { intros [(A & _ & B)|(A & _ & B)] Hr.
    - repeat split; intros; try congruence.
      + destruct B as [B|[B1 B2]]; [congruence|].
        specialize (Hwf B2). congruence.
      + destruct B as [B|[B1 B2]]; [now left|].
        left. rewrite (Hwf B2). exact B1.
    - repeat split; auto; intros; lia. }
  destruct c.
  - invert_invoke H. unfold Lock in E.
    destruct (locked t); [discriminate|]. inversion E. subst.
    unfold flushes. cbn. repeat split; intros; congruence || auto.
  - invert_invoke H. destruct (Unlock_effect _ _ E) as [Hc _]. auto.
  - invert_invoke H.
    destruct (UnsafeCreateBucket_Done _ _ _ E)
      as (h & h1 & _ & _ & _ & _ & _ & _ & Hb & _ & Hpd).
    auto.
  - invert_invoke H.
    destruct (unsafePut_Done _ _ _ _ _ _ E) as (Hb & _ & Hpd & _). auto.
  - invert_invoke H.
    destruct (unsafePut_Done _ _ _ _ _ _ E) as (Hb & _ & Hpd & _). auto.
  - invert_invoke H. repeat split; intros; congruence || auto.
  - invert_invoke H.
    destruct (UnsafeDelete_Done _ _ _ _ E) as (Hb & _ & Hpd & _). auto.
  - invert_invoke H. repeat split; intros; congruence || auto.
  - invert_invoke H.
    destruct (locked_commit_effect false _ _ E) as (Hc & _). auto.
  - invert_invoke H.
    destruct (locked_commit_effect true _ _ E) as (Hc & _). auto.
Qed.

(** [pending_reset_iff_flushed] at the same [Commit]: pending goes from 4
    to 0 and the call flushed. *)
Lemma pending_reset_iff_flushed_witness :
  0 <= pending (example_state 10 4 [bolt.FlushLeaves 32768 3]) < max_int64
  /\ exists t',
       invoke (@call_Commit unit)
         (set_locked (example_state 10 4 [bolt.FlushLeaves 32768 3]) false)
         tt
       = Done (t', tt, ret_void)
       /\ pending t' = 0
       /\ (4 <> 0 -> pending t' = 0 -> flushes t' = 0 + 1).
Proof.
  assert (Hp : 0 <= pending (example_state 10 4 [bolt.FlushLeaves 32768 3])
               < max_int64) by (split; vm_compute; congruence).
  assert (Hwf : tx (set_locked
                      (example_state 10 4 [bolt.FlushLeaves 32768 3]) false)
                = None ->
                pending (set_locked
                           (example_state 10 4 [bolt.FlushLeaves 32768 3])
                           false) = 0)
    by (intros E; discriminate E).
  split; [exact Hp|].
  eexists. split; [reflexivity|]. split; [reflexivity|].
  exact (proj1 (proj2
           (pending_reset_iff_flushed unit call_Commit
              (set_locked (example_state 10 4 [bolt.FlushLeaves 32768 3])
                 false)
              _ tt tt ret_void Hwf Hp eq_refl))).
Defined.

(** ** The states the constructor leads to *)

Lemma insert_Forall {V : Type} (Q : bytes * V -> Prop) (k : bytes) (v : V)
  (l : bolt.table V) :
  Forall Q l -> Q (k, v) -> Forall Q (bolt.insert k v l).
Proof.
  intros Hl Hq. induction Hl as [|[k' v'] l Ha Hl IH]; simpl.
  - now repeat constructor.
  - destruct (bytes_cmp k k'); repeat constructor; auto.
Qed.

Lemma lookup_Forall {V : Type} (Q : bytes * V -> Prop) (k : bytes) (v : V)
  (l : bolt.table V) :
  Forall Q l -> bolt.lookup k l = Some v -> Q (k, v).
Proof.
  intros Hl Hk. apply lookup_Some_In in Hk.
  rewrite Forall_forall in Hl. now apply Hl.
Qed.

Lemma fresh_root_ordered (r : bolt.table bolt.Bucket) :
  root_ordered r -> root_ordered (bolt.fresh_root r).
Proof.
  unfold root_ordered, bolt.ordered, bolt.keys_of, bolt.fresh_root.
  intros [H1 H2]. split.
  - rewrite map_map. cbn [fst]. exact H1.
  - apply Forall_map. eapply Forall_impl; [|exact H2]. now intros [n b].
Qed.

Lemma store_root_ordered (h : bolt.Tx) (name : bytes) (b : bolt.Bucket) :
  root_ordered (bolt.tx_root h) -> bolt.ordered (bolt.pairs b) ->
  root_ordered (bolt.tx_root (bolt.Tx_store h name b)).
Proof.
  intros [H1 H2] Hb. split; cbn.
  - now apply insert_ordered.
  - now apply insert_Forall.
Qed.

Lemma commit_ordered (stop : bool) (t t' : batchTx) :
  commit stop t = Done t' -> store_ordered t -> store_ordered t'.
Proof.
  intros H [Hd Ht]. apply commit_Done in H as [H|[H|H]].
  - destruct H as (h & _ & _ & _ & ->). now split.
  - destruct H as [Htx H].
    apply begin_new_tx_Done in H as [[_ ->]|(_ & _ & _ & ->)];
      [now split|].
    split; cbn; [exact Hd | now apply fresh_root_ordered].
  - destruct H as (h & d & Htx & _ & Hc & H). rewrite Htx in Ht.
    apply Tx_Commit_None in Hc as (_ & _ & _ & _ & _ & _ & Hr).
    apply begin_new_tx_Done in H as [[_ ->]|(_ & _ & _ & ->)];
      split; cbn; rewrite ?Hr; auto.
    now apply fresh_root_ordered.
Qed.

Lemma Unlock_ordered (t t' : batchTx) :
  Unlock t = Done t' ->
  (store_ordered t -> store_ordered t') /\ (tx t <> None -> tx t' <> None).
Proof.
  intros H.
  apply Unlock_Done in H as [(_ & _ & ->)|(_ & t1 & Hc & _ & ->)].
  - split; auto.
  - split.
    + intros Ho. exact (commit_ordered _ _ _ Hc Ho).
    + intros Hn. destruct (commit_frame _ _ _ Hc) as (_ & _ & Hk & _).
      now apply Hk.
Qed.

Lemma locked_commit_ordered (stop : bool) (t t' : batchTx) :
  (t0 <- Lock t ;; t1 <- commit stop t0 ;; Unlock t1) = Done t' ->
  (store_ordered t -> store_ordered t')
  /\ (tx t <> None -> tx t' <> None)
  /\ (stop = false -> tx t' <> None).
Proof.
  unfold Lock. destruct (locked t); [discriminate|]. cbn [bind].
  destruct (commit stop (set_locked t true)) as [t1| | |] eqn:Hc;
    cbn [bind]; try discriminate.
  intros Hu. destruct (Unlock_ordered _ _ Hu) as [Ho Hn].
  destruct (commit_frame _ _ _ Hc) as (_ & _ & Hk & Hs & _).
  split; [|split].
  - intros Hi. apply Ho. exact (commit_ordered _ _ _ Hc Hi).
  - intros Hi. apply Hn, Hk. exact Hi.
  - intros Hi. apply Hn, Hs. exact Hi.
Qed.

Lemma UnsafeCreateBucket_ordered (name : bytes) (t t1 : batchTx)
  (h : bolt.Tx) :
  UnsafeCreateBucket name t = Done t1 -> tx t = Some h ->
  root_ordered (bolt.tx_root h) ->
  exists h1, tx t1 = Some h1 /\ root_ordered (bolt.tx_root h1).
Proof.
  unfold UnsafeCreateBucket, bolt.Tx_CreateBucket. intros E Htx [H1 H2].
  rewrite Htx in E.
  destruct (bolt.tx_open h); cbn in E; [|discriminate].
  destruct name as [|x name]; cbn in E; [discriminate|].
  destruct (bolt.lookup (x :: name) (bolt.tx_root h));
    cbn in E; inversion E; subst; cbn.
  - exists h. now repeat split.
  - eexists. split; [reflexivity|]. split; cbn.
    + now apply insert_ordered.
    + now apply insert_Forall.
Qed.

(** X9: the constructor returns a state with a handle in which everything
    is ordered and nothing is pending, and every call of the interface
    that returns keeps the handle field non-nil and everything ordered:
    the hypotheses made above on the handle and on the order of keys hold
    in every state the constructor and the interface lead to. *)
Lemma handle_and_order_kept :
  (forall (b : Backend) (t : batchTx),
      root_ordered (bolt.db_root (db b)) -> newBatchTx b = Done t ->
      tx t <> None /\ store_ordered t /\ pending t = 0)
  /\ (forall (S : Type) (c : call S) (t t' : batchTx) (s s' : S)
             (r : returned),
      invoke c t s = Done (t', s', r) ->
      (tx t <> None -> tx t' <> None)
      /\ (store_ordered t -> store_ordered t')).
Proof.
  split.
  - intros b t Hr H. unfold newBatchTx, Commit in H. cbv zeta in H.
    destruct (locked_commit_ordered false _ _ H) as (Ho & _ & Hn).
    destruct (locked_commit_effect false _ _ H)
      as ([(_ & _ & Hp)|(_ & _ & Hp)] & _).
    + split; [now apply Hn|]. split; [apply Ho; now split|].
      destruct Hp as [Hp|[Hp _]]; exact Hp.
    + split; [now apply Hn|]. split; [apply Ho; now split | exact Hp].
  - intros S c t t' s s' r H. destruct c.
    + invert_invoke H. unfold Lock in E.
      destruct (locked t); [discriminate|]. inversion E. auto.
    + invert_invoke H. destruct (Unlock_ordered _ _ E). auto.
    + invert_invoke H.
      destruct (UnsafeCreateBucket_Done _ _ _ E)
        as (h & h1 & Htx & Htx1 & _ & _ & _ & _ & Hb & _).
      split; [congruence|].
      intros [Hd Ht]. rewrite Htx in Ht. split; [now rewrite Hb|].
      destruct (UnsafeCreateBucket_ordered _ _ _ _ E Htx Ht)
        as (h2 & Htx2 & Ho2).
      now rewrite Htx2.
    + invert_invoke H. unfold UnsafePut, unsafePut, bolt.Tx_Bucket in E.
      destruct (tx t) as [h|] eqn:Htx; [|discriminate].
      destruct (bolt.tx_open h); cbn [bind] in E; [|discriminate].
      destruct (bolt.lookup bucketName (bolt.tx_root h)) as [b|] eqn:Hl;
        [|discriminate].
      unfold bolt.Bucket_Put in E. destruct key as [|x key]; [discriminate|].
      destruct (bolt.MaxKeySize <? bolt.len (x :: key)); [discriminate|].
      destruct (bolt.MaxValueSize <? bolt.len value); [discriminate|].
      inversion E. subst. cbn. split; [discriminate|].
      intros [Hd Ht]. rewrite Htx in Ht. split; [exact Hd|].
      apply store_root_ordered; [exact Ht|]. cbn.
      apply insert_ordered.
      exact (lookup_Forall _ _ _ _ (proj2 Ht) Hl).
    + invert_invoke H. unfold UnsafeSeqPut, unsafePut, bolt.Tx_Bucket in E.
      destruct (tx t) as [h|] eqn:Htx; [|discriminate].
      destruct (bolt.tx_open h); cbn [bind] in E; [|discriminate].
      destruct (bolt.lookup bucketName (bolt.tx_root h)) as [b|] eqn:Hl;
        [|discriminate].
      unfold bolt.Bucket_Put in E. cbn [bolt.set_FillPercent] in E.
      destruct key as [|x key]; [discriminate|].
      destruct (bolt.MaxKeySize <? bolt.len (x :: key)); [discriminate|].
      destruct (bolt.MaxValueSize <? bolt.len value); [discriminate|].
      inversion E. subst. cbn. split; [discriminate|].
      intros [Hd Ht]. rewrite Htx in Ht. split; [exact Hd|].
      apply store_root_ordered; [exact Ht|]. cbn.
      apply insert_ordered.
      exact (lookup_Forall _ _ _ _ (proj2 Ht) Hl).
    + invert_invoke H. auto.
    + invert_invoke H. unfold UnsafeDelete, bolt.Tx_Bucket in E.
      destruct (tx t) as [h|] eqn:Htx; [|discriminate].
      destruct (bolt.tx_open h); cbn [bind] in E; [|discriminate].
      destruct (bolt.lookup bucketName (bolt.tx_root h)) as [b|] eqn:Hl;
        [|discriminate].
      inversion E. subst. cbn. split; [discriminate|].
      intros [Hd Ht]. rewrite Htx in Ht. split; [exact Hd|].
      apply store_root_ordered; [exact Ht|]. cbn.
      apply remove_ordered.
      exact (lookup_Forall _ _ _ _ (proj2 Ht) Hl).
    + invert_invoke H. auto.
    + invert_invoke H.
      destruct (locked_commit_ordered false _ _ E) as (A & B & _). auto.
    + invert_invoke H.
      destruct (locked_commit_ordered true _ _ E) as (A & B & _). auto.
Qed.

(** ** Writing and reading back *)

Lemma lookup_insert_other {V : Type} (k k' : bytes) (v : V)
  (l : bolt.table V) :
  k' <> k -> bolt.lookup k' (bolt.insert k v l) = bolt.lookup k' l.
Proof.
  intros Hne.
  assert (E : bytes_eqb k' k = false).
  { destruct (bytes_eqb k' k) eqn:E; [|reflexivity].
    apply bytes_eqb_eq in E. contradiction. }
  induction l as [|[k2 v2] l IH]; simpl.
  - now rewrite E.
  - destruct (bytes_cmp k k2) eqn:C; simpl.
    + apply bytes_cmp_eq in C. subst k2. now rewrite E.
    + now rewrite E.
    + now rewrite IH.
Qed.

Lemma lookup_remove_other {V : Type} (k k' : bytes) (l : bolt.table V) :
  k' <> k -> bolt.lookup k' (bolt.remove k l) = bolt.lookup k' l.
Proof.
  intros Hne.
  assert (E : bytes_eqb k' k = false).
  { destruct (bytes_eqb k' k) eqn:E; [|reflexivity].
    apply bytes_eqb_eq in E. contradiction. }
  induction l as [|[k2 v2] l IH]; simpl; [reflexivity|].
  destruct (bytes_cmp k k2) eqn:C; simpl.
  - apply bytes_cmp_eq in C. subst k2. now rewrite E.
  - reflexivity.
  - now rewrite IH.
Qed.

Lemma lookup_above {V : Type} (k : bytes) (l : bolt.table V) :
  Forall (fun kv => bytes_lt k (fst kv)) l -> bolt.lookup k l = None.
Proof.
  induction 1 as [|[k2 v2] l H _ IH]; simpl; [reflexivity|].
  simpl in H. now rewrite (bytes_lt_neq_l _ _ H).
Qed.

Lemma lookup_remove {V : Type} (k : bytes) (l : bolt.table V) :
  bolt.ordered l -> bolt.lookup k (bolt.remove k l) = None.
Proof.
  induction l as [|[k2 v2] l IH]; simpl; intros Ho; [reflexivity|].
  pose proof (ordered_inv _ _ _ Ho) as [Ho' Hall].
  destruct (bytes_cmp k k2) eqn:C.
  - apply bytes_cmp_eq in C. subst k2. now apply lookup_above.
  - apply lookup_above. constructor; [exact C|].
    eapply Forall_impl; [|exact Hall].
    intros a Ha. now apply (bytes_lt_trans k k2 (fst a)).
  - simpl. unfold bytes_eqb. rewrite C. now apply IH.
Qed.

Lemma remove_absent {V : Type} (k : bytes) (l : bolt.table V) :
  ~ In k (bolt.keys_of l) -> bolt.remove k l = l.
Proof.
  induction l as [|[k2 v2] l IH]; simpl; intros Hn; [reflexivity|].
  destruct (bytes_cmp k k2) eqn:C.
  - apply bytes_cmp_eq in C. subst k2. tauto.
  - reflexivity.
  - f_equal. apply IH. tauto.
Qed.

(** The state a returning [unsafePut] leaves. *)
Lemma unsafePut_shape (bucketName key value : bytes) (seq : bool)
  (t t1 : batchTx) :
  unsafePut bucketName key value seq t = Done t1 ->
  exists h b,
    tx t = Some h /\ bolt.tx_open h = true
    /\ bolt.lookup bucketName (bolt.tx_root h) = Some b
    /\ t1 = incr_pending
              (set_tx t
                 (Some (bolt.Tx_store h bucketName
                          {| bolt.pairs :=
                               bolt.insert key value (bolt.pairs b);
                             bolt.FillPercent :=
                               if seq then 90 else bolt.FillPercent b |}))).
Proof.
  unfold unsafePut, bolt.Tx_Bucket.
  destruct (tx t) as [h|] eqn:Htx; [|discriminate].
  destruct (bolt.tx_open h) eqn:Ho; cbn [bind]; [|discriminate].
  destruct (bolt.lookup bucketName (bolt.tx_root h)) as [b|] eqn:Hl;
    [|discriminate].
  unfold bolt.Bucket_Put. destruct key as [|x key]; [destruct seq; discriminate|].
  destruct seq; cbn [bolt.set_FillPercent bolt.pairs bolt.FillPercent];
    destruct (bolt.MaxKeySize <? bolt.len (x :: key)); try discriminate;
    destruct (bolt.MaxValueSize <? bolt.len value); try discriminate;
    intros H; inversion H; exists h, b; repeat split; assumption.
Qed.

(** The state a returning [UnsafeDelete] leaves. *)
Lemma UnsafeDelete_shape (bucketName key : bytes) (t t1 : batchTx) :
  UnsafeDelete bucketName key t = Done t1 ->
  exists h b,
    tx t = Some h /\ bolt.tx_open h = true
    /\ bolt.lookup bucketName (bolt.tx_root h) = Some b
    /\ t1 = incr_pending
              (set_tx t
                 (Some (bolt.Tx_store h bucketName
                          {| bolt.pairs := bolt.remove key (bolt.pairs b);
                             bolt.FillPercent := bolt.FillPercent b |}))).
Proof.
  unfold UnsafeDelete, bolt.Tx_Bucket.
  destruct (tx t) as [h|] eqn:Htx; [|discriminate].
  destruct (bolt.tx_open h) eqn:Ho; cbn [bind]; [|discriminate].
  destruct (bolt.lookup bucketName (bolt.tx_root h)) as [b|] eqn:Hl;
    [|discriminate].
  intros H; inversion H; exists h, b; repeat split; assumption.
Qed.

(** A read depends on the state only through the open handle's view of
    the bucket. *)
Lemma UnsafeRange_by_view (t1 t2 : batchTx) (name key endKey : bytes)
  (limit : Z) :
  open_handle t1 = true -> open_handle t2 = true ->
  visible t1 name = visible t2 name ->
  UnsafeRange name key endKey limit t1 = UnsafeRange name key endKey limit t2.
Proof.
  unfold open_handle, visible, bucket_of, UnsafeRange, bolt.Tx_Bucket.
  destruct (tx t1) as [h1|]; [|discriminate].
  destruct (tx t2) as [h2|]; [|discriminate].
  intros -> ->. cbn [bind].
  destruct (bolt.lookup name (bolt.tx_root h1)) as [b1|];
    destruct (bolt.lookup name (bolt.tx_root h2)) as [b2|];
    cbn; try discriminate; [|reflexivity].
  intros E. inversion E as [E'].
  unfold bolt.Bucket_Get, bolt.Cursor_Seek. now rewrite E'.
Qed.

Lemma visible_after_store (t : batchTx) (h : bolt.Tx) (name name' : bytes)
  (b : bolt.Bucket) (p : Z) :
  tx t = Some h -> bolt.tx_open h = true ->
  visible (set_pending (set_tx t (Some (bolt.Tx_store h name b))) p) name'
  = if bytes_eqb name' name then Some (bolt.pairs b) else visible t name'.
Proof.
  intros Htx Ho. unfold visible, bucket_of. cbn. rewrite Htx, Ho.
  destruct (bytes_eqb name' name) eqn:E.
  - apply bytes_eqb_eq in E. subst. now rewrite lookup_insert.
  - rewrite lookup_insert_other; [reflexivity|].
    intros ->. now rewrite bytes_eqb_refl in E.
Qed.

Lemma point_lookup (t : batchTx) (name k : bytes) (limit : Z)
  (ps : bolt.table bytes) :
  open_handle t = true -> visible t name = Some ps ->
  UnsafeRange name k [] limit t
  = Done (match bolt.lookup k ps with
          | None => ([], [])
          | Some v => ([k], [v])
          end).
Proof.
  unfold open_handle, visible, bucket_of, UnsafeRange, bolt.Tx_Bucket.
  destruct (tx t) as [h|]; [|discriminate].
  intros ->. cbn [bind].
  destruct (bolt.lookup name (bolt.tx_root h)) as [b|]; [|discriminate].
  cbn. intros E. inversion E. unfold bolt.Bucket_Get.
  now destruct (bolt.lookup k (bolt.pairs b)).
Qed.

Lemma open_after_store (t : batchTx) (h : bolt.Tx) (name : bytes)
  (b : bolt.Bucket) (p : Z) :
  bolt.tx_open h = true ->
  open_handle (set_pending (set_tx t (Some (bolt.Tx_store h name b))) p)
  = true.
Proof. intros Ho. exact Ho. Qed.

Lemma open_handle_of (t : batchTx) (h : bolt.Tx) :
  tx t = Some h -> bolt.tx_open h = true -> open_handle t = true.
Proof. intros Htx Ho. unfold open_handle. now rewrite Htx. Qed.

Lemma visible_of (t : batchTx) (h : bolt.Tx) (name : bytes)
  (b : bolt.Bucket) :
  tx t = Some h -> bolt.tx_open h = true ->
  bolt.lookup name (bolt.tx_root h) = Some b ->
  visible t name = Some (bolt.pairs b).
Proof.
  intros Htx Ho Hl. unfold visible, bucket_of. now rewrite Htx, Ho, Hl.
Qed.

(** X1: a put that returns can be read back, and is the only thing that
    changed for readers.  After [UnsafePut] (seq = false) or
    [UnsafeSeqPut] (seq = true) of [key], the point lookup of [key] in
    that bucket returns exactly the pair of [key] and the value just
    written, whatever was stored under [key] before; the point lookup of
    any other key of the bucket, and every read of any other bucket,
    return what they returned before the put. *)
Theorem put_then_read (bucketName key value : bytes) (seq : bool)
  (t t1 : batchTx)
  (H : unsafePut bucketName key value seq t = Done t1) :
  (forall limit,
      UnsafeRange bucketName key [] limit t1 = Done ([key], [value]))
  /\ (forall k limit,
      k <> key ->
      UnsafeRange bucketName k [] limit t1
      = UnsafeRange bucketName k [] limit t)
  /\ (forall name k endKey limit,
      name <> bucketName ->
      UnsafeRange name k endKey limit t1 = UnsafeRange name k endKey limit t).
Proof.
  destruct (unsafePut_shape _ _ _ _ _ _ H) as (h & b & Htx & Ho & Hl & ->).
  unfold incr_pending.
  pose proof (open_handle_of t h Htx Ho) as Hopen.
  pose proof (visible_of t h bucketName b Htx Ho Hl) as Hv.
  set (b' := {| bolt.pairs := bolt.insert key value (bolt.pairs b);
                bolt.FillPercent := if seq then 90 else bolt.FillPercent b |}).
  split; [|split].
  - intros limit.
    rewrite (point_lookup _ bucketName key limit (bolt.pairs b')).
    + cbn. now rewrite lookup_insert.
    + now apply open_after_store.
    + rewrite (visible_after_store t h bucketName bucketName b' _ Htx Ho).
      now rewrite bytes_eqb_refl.
  - intros k limit Hk.
    rewrite (point_lookup _ bucketName k limit (bolt.pairs b')).
    + rewrite (point_lookup t bucketName k limit (bolt.pairs b) Hopen Hv).
      cbn. now rewrite lookup_insert_other.
    + now apply open_after_store.
    + rewrite (visible_after_store t h bucketName bucketName b' _ Htx Ho).
      now rewrite bytes_eqb_refl.
  - intros name k endKey limit Hn.
    apply UnsafeRange_by_view; [now apply open_after_store | exact Hopen |].
    rewrite (visible_after_store t h bucketName name b' _ Htx Ho).
    destruct (bytes_eqb name bucketName) eqn:E; [|reflexivity].
    apply bytes_eqb_eq in E. contradiction.
Qed.

Lemma put_then_read_witness :
  exists t1,
    UnsafePut (bs "key") (bs "b") (bs "9") (example_state 10 4 []) = Done t1
    /\ UnsafeRange (bs "key") (bs "b") [] 0 t1 = Done ([bs "b"], [bs "9"])
    /\ UnsafeRange (bs "key") (bs "a") [] 0 t1
       = UnsafeRange (bs "key") (bs "a") [] 0 (example_state 10 4 []).
Proof.
  eexists. split; [reflexivity|].
  destruct (put_then_read (bs "key") (bs "b") (bs "9") false
              (example_state 10 4 []) _ eq_refl) as (H1 & H2 & _).
  split; [apply H1 | apply H2; discriminate].
Defined.

(** X2: a delete that returns, on a bucket whose keys are in order, makes
    the key absent for readers and changes nothing else for them: the
    point lookup of [key] then returns an empty result, the point lookup
    of any other key of the bucket and every read of any other bucket
    return what they returned before. *)
Theorem delete_then_read (bucketName key : bytes) (t t1 : batchTx)
  (ps : bolt.table bytes)
  (Hv : visible t bucketName = Some ps)
  (Ho : bolt.ordered ps)
  (H : UnsafeDelete bucketName key t = Done t1) :
  (forall limit, UnsafeRange bucketName key [] limit t1 = Done ([], []))
  /\ (forall k limit,
      k <> key ->
      UnsafeRange bucketName k [] limit t1
      = UnsafeRange bucketName k [] limit t)
  /\ (forall name k endKey limit,
      name <> bucketName ->
      UnsafeRange name k endKey limit t1 = UnsafeRange name k endKey limit t).
Proof.
  destruct (UnsafeDelete_shape _ _ _ _ H) as (h & b & Htx & Hop & Hl & ->).
  unfold incr_pending.
  pose proof (open_handle_of t h Htx Hop) as Hopen.
  rewrite (visible_of t h bucketName b Htx Hop Hl) in Hv.
  inversion Hv as [Hps]. clear Hv.
  pose proof (visible_of t h bucketName b Htx Hop Hl) as Hv.
  set (b' := {| bolt.pairs := bolt.remove key (bolt.pairs b);
                bolt.FillPercent := bolt.FillPercent b |}).
  split; [|split].
  - intros limit.
    rewrite (point_lookup _ bucketName key limit (bolt.pairs b')).
    + cbn. rewrite lookup_remove; [reflexivity | now rewrite Hps].
    + now apply open_after_store.
    + rewrite (visible_after_store t h bucketName bucketName b' _ Htx Hop).
      now rewrite bytes_eqb_refl.
  - intros k limit Hk.
    rewrite (point_lookup _ bucketName k limit (bolt.pairs b')).
    + rewrite (point_lookup t bucketName k limit (bolt.pairs b) Hopen Hv).
      cbn. now rewrite lookup_remove_other.
    + now apply open_after_store.
    + rewrite (visible_after_store t h bucketName bucketName b' _ Htx Hop).
      now rewrite bytes_eqb_refl.
  - intros name k endKey limit Hn.
    apply UnsafeRange_by_view; [now apply open_after_store | exact Hopen |].
    rewrite (visible_after_store t h bucketName name b' _ Htx Hop).
    destruct (bytes_eqb name bucketName) eqn:E; [|reflexivity].
    apply bytes_eqb_eq in E. contradiction.
Qed.

Lemma delete_then_read_witness :
  visible (example_state 10 4 []) (bs "key")
  = Some (bolt.pairs example_bucket)
  /\ bolt.ordered (bolt.pairs example_bucket)
  /\ exists t1,
       UnsafeDelete (bs "key") (bs "b") (example_state 10 4 []) = Done t1
       /\ UnsafeRange (bs "key") (bs "b") [] 0 t1 = Done ([], []).
Proof.
  split; [reflexivity|]. split; [reflexivity|].
  eexists. split; [reflexivity|].
  destruct (delete_then_read (bs "key") (bs "b") (example_state 10 4 []) _
              (bolt.pairs example_bucket) eq_refl eq_refl eq_refl)
    as (H1 & _).
  apply H1.
Defined.

(** X3: deleting a key that is not in the bucket is not an error, and it
    is still counted.  On an open handle and an existing bucket,
    [UnsafeDelete] of an absent key returns, leaves the pairs of the
    bucket and the backend as they were, and adds one to the pending
    counter like any other mutation. *)
Theorem delete_absent_key (bucketName key : bytes) (t : batchTx)
  (ps : bolt.table bytes)
  (Hopen : open_handle t = true)
  (Hv : visible t bucketName = Some ps)
  (Habs : ~ In key (bolt.keys_of ps)) :
  exists t1,
    UnsafeDelete bucketName key t = Done t1
    /\ visible t1 bucketName = Some ps
    /\ (forall name, visible t1 name = visible t name)
    /\ backend t1 = backend t
    /\ pending t1 = wrap64 (pending t + 1).
Proof.
  unfold open_handle in Hopen. destruct (tx t) as [h|] eqn:Htx;
    [|discriminate].
  assert (Hl : exists b, bolt.lookup bucketName (bolt.tx_root h) = Some b
                         /\ bolt.pairs b = ps).
  { unfold visible, bucket_of in Hv. rewrite Htx, Hopen in Hv.
    destruct (bolt.lookup bucketName (bolt.tx_root h)) as [b|];
      [|discriminate].
    exists b. split; [reflexivity|]. now inversion Hv. }
  destruct Hl as (b & Hl & Hps).
  eexists. split.
  - unfold UnsafeDelete, bolt.Tx_Bucket. rewrite Htx, Hopen. cbn [bind].
    rewrite Hl. reflexivity.
  - unfold incr_pending.
    assert (Hsame : forall name,
               visible
                 (set_pending
                    (set_tx t
                       (Some (bolt.Tx_store h bucketName
                                {| bolt.pairs :=
                                     bolt.remove key (bolt.pairs b);
                                   bolt.FillPercent :=
                                     bolt.FillPercent b |})))
                    (wrap64 (pending t + 1))) name
               = visible t name).
    { intros name.
      rewrite (visible_after_store t h bucketName name _ _ Htx Hopen).
      destruct (bytes_eqb name bucketName) eqn:E; [|reflexivity].
      apply bytes_eqb_eq in E. subst name. cbn.
      rewrite remove_absent; [|now rewrite Hps].
      symmetry. now apply (visible_of t h). }
    split; [|split; [exact Hsame|split; reflexivity]].
    rewrite Hsame. exact Hv.
Qed.

Lemma delete_absent_key_witness :
  open_handle (example_state 10 4 []) = true
  /\ ~ In (bs "z") (bolt.keys_of (bolt.pairs example_bucket))
  /\ exists t1,
       UnsafeDelete (bs "key") (bs "z") (example_state 10 4 []) = Done t1
       /\ visible t1 (bs "key") = Some (bolt.pairs example_bucket)
       /\ pending t1 = 5.
Proof.
  assert (Habs : ~ In (bs "z") (bolt.keys_of (bolt.pairs example_bucket))).
  { cbn. intros [E|[E|[E|E]]]; try discriminate E. exact E. }
  split; [reflexivity|]. split; [exact Habs|].
  destruct (delete_absent_key (bs "key") (bs "z") (example_state 10 4 [])
              (bolt.pairs example_bucket) eq_refl eq_refl Habs)
    as (t1 & H & H1 & _ & _ & H2).
  exists t1. split; [exact H|]. split; [exact H1|].
  rewrite H2. reflexivity.
Defined.

(** X4: the sequential hint changes how the store packs pages, not what
    is stored.  [UnsafeSeqPut] and [UnsafePut] with the same arguments in
    the same state end the same way; when they return, readers see the
    same pairs in every bucket, and the pending counter, the backend, the
    lock and the identity of the handle are the same: the states differ
    only in the fill ratio of the bucket, which [UnsafeSeqPut] has set to
    0.9. *)
Theorem seq_put_same_data (bucketName key value : bytes) (t : batchTx) :
  match UnsafeSeqPut bucketName key value t,
        UnsafePut bucketName key value t with
  | Done t1, Done t2 =>
      (forall name, visible t1 name = visible t2 name)
      /\ pending t1 = pending t2
      /\ backend t1 = backend t2
      /\ locked t1 = locked t2
      /\ handle_id t1 = handle_id t2
      /\ option_map bolt.FillPercent (bucket_of t1 bucketName) = Some 90
  | Fatal f1, Fatal f2 => f1 = f2
  | Crash p1, Crash p2 => p1 = p2
  | Blocked, Blocked => True
  | _, _ => False
  end.
Proof.
  unfold UnsafeSeqPut, UnsafePut.
  destruct (unsafePut bucketName key value true t) as [t1| | |] eqn:H1.
  - destruct (unsafePut_shape _ _ _ _ _ _ H1)
      as (h & b & Htx & Ho & Hl & ->).
    assert (H2 : unsafePut bucketName key value false t
                 = Done (incr_pending
                           (set_tx t
                              (Some (bolt.Tx_store h bucketName
                                       {| bolt.pairs :=
                                            bolt.insert key value
                                              (bolt.pairs b);
                                          bolt.FillPercent :=
                                            bolt.FillPercent b |}))))).
    { revert H1. unfold unsafePut, bolt.Tx_Bucket.
      rewrite Htx, Ho. cbn [bind]. rewrite Hl.
      unfold bolt.Bucket_Put. cbn [bolt.set_FillPercent bolt.pairs].
      destruct key as [|x key]; [discriminate|].
      destruct (bolt.MaxKeySize <? bolt.len (x :: key)); [discriminate|].
      destruct (bolt.MaxValueSize <? bolt.len value); [discriminate|].
      reflexivity. }
    rewrite H2. unfold incr_pending. repeat split.
    + intros name.
      rewrite !(visible_after_store t h bucketName name _ _ Htx Ho).
      reflexivity.
    + unfold bucket_of. cbn. rewrite Ho, lookup_insert. reflexivity.
  - revert H1. unfold unsafePut, bolt.Tx_Bucket.
    destruct (tx t) as [h|]; [|discriminate].
    destruct (bolt.tx_open h); cbn [bind]; [|discriminate].
    destruct (bolt.lookup bucketName (bolt.tx_root h)) as [b|];
      [|intros H; now inversion H].
    unfold bolt.Bucket_Put. cbn [bolt.set_FillPercent bolt.pairs].
    destruct key as [|x key]; [intros H; now inversion H|].
    destruct (bolt.MaxKeySize <? bolt.len (x :: key));
      [intros H; now inversion H|].
    destruct (bolt.MaxValueSize <? bolt.len value);
      [intros H; now inversion H | discriminate].
  - revert H1. unfold unsafePut, bolt.Tx_Bucket.
    destruct (tx t) as [h|]; [|intros H; now inversion H].
    destruct (bolt.tx_open h); cbn [bind]; [|intros H; now inversion H].
    destruct (bolt.lookup bucketName (bolt.tx_root h)) as [b|];
      [|discriminate].
    unfold bolt.Bucket_Put. cbn [bolt.set_FillPercent bolt.pairs].
    destruct key as [|x key]; [discriminate|].
    destruct (bolt.MaxKeySize <? bolt.len (x :: key)); [discriminate|].
    destruct (bolt.MaxValueSize <? bolt.len value); discriminate.
  - revert H1. unfold unsafePut, bolt.Tx_Bucket.
    destruct (tx t) as [h|]; [|discriminate].
    destruct (bolt.tx_open h); cbn [bind]; [|discriminate].
    destruct (bolt.lookup bucketName (bolt.tx_root h)) as [b|];
      [|discriminate].
    unfold bolt.Bucket_Put. cbn [bolt.set_FillPercent bolt.pairs].
    destruct key as [|x key]; [discriminate|].
    destruct (bolt.MaxKeySize <? bolt.len (x :: key)); [discriminate|].
    destruct (bolt.MaxValueSize <? bolt.len value); discriminate.
Qed.

(** The state a returning [UnsafeCreateBucket] leaves. *)
Lemma UnsafeCreateBucket_shape (name : bytes) (t t1 : batchTx) :
  UnsafeCreateBucket name t = Done t1 ->
  exists h,
    tx t = Some h /\ bolt.tx_open h = true
    /\ t1 = incr_pending
              (set_tx t
                 (Some (match bolt.lookup name (bolt.tx_root h) with
                        | Some _ => h
                        | None =>
                            bolt.with_root h
                              (bolt.insert name bolt.new_bucket
                                 (bolt.tx_root h))
                        end))).
Proof.
  unfold UnsafeCreateBucket, bolt.Tx_CreateBucket.
  destruct (tx t) as [h|] eqn:Htx; [|discriminate].
  destruct (bolt.tx_open h) eqn:Ho; cbn; [|discriminate].
  destruct name as [|x name]; cbn; [discriminate|].
  destruct (bolt.lookup (x :: name) (bolt.tx_root h)) eqn:Hl; cbn;
    intros H; inversion H; exists h; rewrite ?Hl;
    repeat (split; try reflexivity); exact Ho.
Qed.

(** X5: creating a bucket never touches stored pairs.  When
    [UnsafeCreateBucket] returns, a bucket that already existed under that
    name still holds the pairs it held, a bucket that did not exist is
    now there and empty, and every other bucket is as it was; the backend
    is unchanged. *)
Theorem create_bucket_keeps_data (name : bytes) (t t1 : batchTx)
  (H : UnsafeCreateBucket name t = Done t1) :
  visible t1 name
  = Some (match visible t name with Some ps => ps | None => [] end)
  /\ (forall name', name' <> name -> visible t1 name' = visible t name')
  /\ backend t1 = backend t.
Proof.
  destruct (UnsafeCreateBucket_shape _ _ _ H) as (h & Htx & Ho & ->).
  unfold incr_pending, visible, bucket_of. cbn. rewrite Htx, Ho.
  destruct (bolt.lookup name (bolt.tx_root h)) as [b|] eqn:Hl.
  - rewrite Ho, Hl. repeat split.
  - cbn. rewrite Ho. repeat split.
    + now rewrite lookup_insert.
    + intros name' Hn. now rewrite lookup_insert_other.
Qed.

Lemma create_bucket_keeps_data_witness :
  exists t1,
    UnsafeCreateBucket (bs "key") (example_state 10 4 []) = Done t1
    /\ visible t1 (bs "key") = Some (bolt.pairs example_bucket).
Proof.
  eexists. split; [reflexivity|].
  destruct (create_bucket_keeps_data (bs "key") (example_state 10 4 []) _
              eq_refl) as (H1 & _).
  exact H1.
Defined.

(** ** Sequences of calls *)

(** What a returning mutation has done to everything but the buckets. *)
Lemma mutation_Done {S : Type} (c : call S) (t t' : batchTx) (s s' : S)
  (r : returned) :
  is_mutation c = true -> invoke c t s = Done (t', s', r) ->
  backend t' = backend t /\ handle_id t' = handle_id t
  /\ locked t' = locked t /\ s' = s
  /\ pending t' = wrap64 (pending t + 1)
  /\ open_handle t = true /\ open_handle t' = true.
Proof.
  intros Hm H. destruct c; try discriminate Hm.
  - invert_invoke H.
    destruct (UnsafeCreateBucket_shape _ _ _ E) as (h & Htx & Ho & ->).
    unfold handle_id, open_handle. cbn. rewrite Htx.
    destruct (bolt.lookup name (bolt.tx_root h)); cbn; repeat split; auto.
  - invert_invoke H.
    destruct (unsafePut_shape _ _ _ _ _ _ E) as (h & b & Htx & Ho & _ & ->).
    unfold handle_id, open_handle. cbn. rewrite Htx. cbn. repeat split; auto.
  - invert_invoke H.
    destruct (unsafePut_shape _ _ _ _ _ _ E) as (h & b & Htx & Ho & _ & ->).
    unfold handle_id, open_handle. cbn. rewrite Htx. cbn. repeat split; auto.
  - invert_invoke H.
    destruct (UnsafeDelete_shape _ _ _ _ E) as (h & b & Htx & Ho & _ & ->).
    unfold handle_id, open_handle. cbn. rewrite Htx. cbn. repeat split; auto.
Qed.

(** X6: mutations never commit by themselves.  A sequence of
    [UnsafeCreateBucket], [UnsafePut], [UnsafeSeqPut] and [UnsafeDelete]
    calls that all return leaves the backend (store, commit counter, size
    metrics), the lock and the transaction in the handle field as they
    were, whatever the threshold; the pending counter has gone up by the
    number of calls.  The threshold is looked at by [Unlock] only. *)
Theorem mutations_never_commit (S : Type) (cs : list (call S))
  (t t' : batchTx) (s s' : S)
  (Hm : forallb is_mutation cs = true)
  (H : run cs t s = Done (t', s')) :
  backend t' = backend t
  /\ handle_id t' = handle_id t
  /\ locked t' = locked t
  /\ s' = s
  /\ (min_int64 <= pending t ->
      pending t + Z.of_nat (List.length cs) <= max_int64 ->
      pending t' = pending t + Z.of_nat (List.length cs)).
Proof.
  revert t s Hm H. induction cs as [|c cs IH]; intros t s Hm H.
  - cbn in H. inversion H. subst. repeat split. intros _ _. cbn. lia.
  - cbn [forallb] in Hm. apply andb_prop in Hm as [Hc Hm].
    cbn [run] in H.
    destruct (invoke c t s) as [[[t1 s1] r]| | |] eqn:E; cbn [bind] in H;
      try discriminate.
    cbn [fst snd] in H.
    destruct (mutation_Done c t t1 s s1 r Hc E)
      as (Hb & Hid & Hl & Hs & Hp & _).
    destruct (IH t1 s1 Hm H) as (Hb' & Hid' & Hl' & Hs' & Hp').
    repeat split; try congruence.
    intros Hlo Hhi. cbn [List.length] in *.
    assert (Hw : wrap64 (pending t + 1) = pending t + 1)
      by (apply wrap64_id; unfold min_int64, max_int64 in *; lia).
    rewrite Hp' ; rewrite Hp, Hw; unfold min_int64, max_int64 in *; lia.
Qed.

Lemma mutations_never_commit_witness :
  exists t',
    run [call_UnsafePut (bs "key") (bs "d") (bs "4");
         call_UnsafeDelete (bs "key") (bs "a");
         call_UnsafeSeqPut (bs "key") (bs "e") (bs "5")]
      (example_state 2 4 []) tt
    = Done (t', tt)
    /\ backend t' = backend (example_state 2 4 [])
    /\ pending t' = 7.
Proof.
  eexists. split; [reflexivity|].
  destruct (mutations_never_commit unit
              [call_UnsafePut (bs "key") (bs "d") (bs "4");
               call_UnsafeDelete (bs "key") (bs "a");
               call_UnsafeSeqPut (bs "key") (bs "e") (bs "5")]
              (example_state 2 4 []) _ tt tt eq_refl eq_refl)
    as (H1 & _ & _ & _ & H2).
  split; [exact H1|].
  apply H2; vm_compute; discriminate.
Defined.

(** ** Reading across a commit *)

Lemma lookup_fresh_root (name : bytes) (r : bolt.table bolt.Bucket) :
  bolt.lookup name (bolt.fresh_root r)
  = option_map (fun b => bolt.set_FillPercent b bolt.DefaultFillPercent)
      (bolt.lookup name r).
Proof.
  induction r as [|[n b] r IH]; cbn; [reflexivity|].
  destruct (bytes_eqb name n); [reflexivity | exact IH].
Qed.

(** What [commit(false)] on an open handle leaves for readers, and in the
    store. *)
Lemma commit_false_view (t t1 : batchTx) :
  open_handle t = true -> commit false t = Done t1 ->
  open_handle t1 = true
  /\ (forall name, visible t1 name = visible t name)
  /\ pending t1 = 0
  /\ locked t1 = locked t
  /\ (flushes t1 = flushes t \/ flushes t1 = flushes t + 1)
  /\ (flushes t1 = flushes t + 1 ->
      forall h, tx t = Some h ->
                bolt.db_root (db (backend t1)) = bolt.tx_root h).
Proof.
  intros Hopen H. unfold open_handle in Hopen.
  destruct (tx t) as [h|] eqn:Htx; [|discriminate].
  apply commit_Done in H as [H|[H|H]].
  - destruct H as (h0 & _ & Hp & _ & ->).
    unfold open_handle. rewrite Htx. repeat split; auto.
    intros E. lia.
  - destruct H as [E _]. congruence.
  - destruct H as (h0 & d & Htx0 & _ & Hc & H).
    assert (h0 = h) by congruence. subst h0.
    apply Tx_Commit_None in Hc as (_ & _ & Hf & _ & _ & _ & Hr).
    apply begin_new_tx_Done in H as [[H _]|(_ & _ & _ & ->)];
      [discriminate|].
    unfold flushes, visible, bucket_of. cbn. rewrite Htx, Hopen, Hr.
    repeat split; auto.
    + intros name. rewrite lookup_fresh_root.
      now destruct (bolt.lookup name (bolt.tx_root h)).
    + intros _ h1 E. now inversion E.
Qed.

(** X7: a commit-and-reopen cycle is invisible to readers and durable.
    When [Commit] or [Unlock] returns from a state with an open handle,
    the handle is open again and every read returns what it returned
    before the call; and if the call flushed, the buckets the store has
    committed are exactly the buckets the handle held. *)
Theorem commit_keeps_reads (t t' : batchTx)
  (Hopen : open_handle t = true)
  (H : Commit t = Done t' \/ Unlock t = Done t') :
  open_handle t' = true
  /\ (forall name key endKey limit,
      UnsafeRange name key endKey limit t'
      = UnsafeRange name key endKey limit t)
  /\ (forall name, visible t' name = visible t name)
  /\ (flushes t' = flushes t + 1 ->
      forall h, tx t = Some h ->
                bolt.db_root (db (backend t')) = bolt.tx_root h).
Proof.
  assert (Hgoal : forall t1,
             open_handle t1 = true ->
             (forall name, visible t1 name = visible t name) ->
             (flushes t1 = flushes t + 1 ->
              forall h, tx t = Some h ->
                        bolt.db_root (db (backend t1)) = bolt.tx_root h) ->
             open_handle t1 = true
             /\ (forall name key endKey limit,
                 UnsafeRange name key endKey limit t1
                 = UnsafeRange name key endKey limit t)
             /\ (forall name, visible t1 name = visible t name)
             /\ (flushes t1 = flushes t + 1 ->
                 forall h, tx t = Some h ->
                           bolt.db_root (db (backend t1)) = bolt.tx_root h)).
  { intros t1 Ho Hv Hd. repeat split; auto.
    intros name key endKey limit. now apply UnsafeRange_by_view. }
  destruct H as [H|H].
  - unfold Commit, Lock in H. destruct (locked t); [discriminate|].
    cbn [bind] in H.
    destruct (commit false (set_locked t true)) as [t1| | |] eqn:Hc;
      cbn [bind] in H; try discriminate.
    destruct (commit_false_view (set_locked t true) t1 Hopen Hc)
      as (Ho & Hv & Hp & _ & _ & Hd).
    assert (Hn : tx t1 <> None).
    { unfold open_handle in Ho. destruct (tx t1); [discriminate|].
      discriminate Ho. }
    rewrite (Unlock_idle _ _ Hn Hp H). apply Hgoal; auto.
  - apply Unlock_Done in H as [(_ & _ & ->)|(_ & t1 & Hc & _ & ->)].
    + apply Hgoal; auto. unfold flushes. cbn. intros E. lia.
    + destruct (commit_false_view _ _ Hopen Hc)
        as (Ho & Hv & Hp & _ & _ & Hd).
      apply Hgoal; auto.
Qed.

Lemma commit_keeps_reads_witness :
  open_handle (set_locked (example_state 10 4 []) false) = true
  /\ exists t',
       Commit (set_locked (example_state 10 4 []) false) = Done t'
       /\ flushes t' = 1
       /\ UnsafeRange (bs "key") (bs "a") (bs "z") 0 t'
          = Done ([bs "a"; bs "b"; bs "c"], [bs "1"; bs "2"; bs "3"]).
Proof.
  split; [reflexivity|].
  eexists. split; [reflexivity|]. split; [reflexivity|].
  destruct (commit_keeps_reads (set_locked (example_state 10 4 []) false) _
              eq_refl (or_introl eq_refl)) as (_ & H & _).
  rewrite H. reflexivity.
Defined.

(** ** Store failures *)

Lemma commit_store_error (stop : bool) (t : batchTx) (h h' : bolt.Tx)
  (d' : bolt.DB) (e : error) :
  tx t = Some h ->
  bolt.Tx_Commit h (db (backend t)) = (h', d', Some e) ->
  pending t <> 0 \/ stop = true ->
  commit stop t = Fatal (cannot_commit_tx e).
Proof.
  intros Htx Hc Hp. unfold commit. rewrite Htx.
  assert (E : (pending t =? 0) && negb stop = false).
  { apply andb_false_iff. destruct Hp as [Hp| ->].
    - left. now apply Z.eqb_neq.
    - now right. }
  now rewrite E, Hc.
Qed.

(** X8: an error of the store at commit or at begin ends the process in
    every public call that reaches it; none of them returns.  If the
    store answers the commit of the handle with an error, [CommitAndStop]
    is fatal, and so are [Commit] and a threshold-reaching [Unlock] when
    something is pending; if the store answers the begin with an error,
    the [Commit] of a batch transaction without a handle, and so the
    constructor, is fatal. *)
Theorem store_failure_is_fatal :
  (forall (t : batchTx) (h h' : bolt.Tx) (d' : bolt.DB) (e : error),
      tx t = Some h ->
      bolt.Tx_Commit h (db (backend t)) = (h', d', Some e) ->
      (locked t = false -> CommitAndStop t = Fatal (cannot_commit_tx e))
      /\ (locked t = false -> pending t <> 0 ->
          Commit t = Fatal (cannot_commit_tx e))
      /\ (pending t >= batchLimit (backend t) -> pending t <> 0 ->
          Unlock t = Fatal (cannot_commit_tx e)))
  /\ (forall (t : batchTx) (d' : bolt.DB) (e : error),
      tx t = None -> locked t = false ->
      bolt.DB_Begin (db (backend t)) = Done (d', inr e) ->
      Commit t = Fatal (cannot_begin_tx e))
  /\ (forall (b : Backend) (d' : bolt.DB) (e : error),
      bolt.DB_Begin (db b) = Done (d', inr e) ->
      newBatchTx b = Fatal (cannot_begin_tx e)).
Proof.
  assert (Hbegin : forall (t : batchTx) (d' : bolt.DB) (e : error),
             tx t = None -> locked t = false ->
             bolt.DB_Begin (db (backend t)) = Done (d', inr e) ->
             Commit t = Fatal (cannot_begin_tx e)).
  { intros t d' e Htx Hl Hb. unfold Commit, Lock. rewrite Hl. cbn [bind].
    unfold commit. cbn [tx set_locked]. rewrite Htx.
    unfold begin_new_tx. cbn [backend set_locked]. now rewrite Hb. }
  split; [|split; [exact Hbegin|]].
  - intros t h h' d' e Htx Hc. split; [|split].
    + intros Hl. unfold CommitAndStop, Lock. rewrite Hl. cbn [bind].
      now rewrite (commit_store_error true (set_locked t true) h h' d' e
                     Htx Hc (or_intror eq_refl)).
    + intros Hl Hp. unfold Commit, Lock. rewrite Hl. cbn [bind].
      now rewrite (commit_store_error false (set_locked t true) h h' d' e
                     Htx Hc (or_introl Hp)).
    + intros Hge Hp. unfold Unlock.
      destruct (pending t >=? batchLimit (backend t)) eqn:E.
      * now rewrite (commit_store_error false t h h' d' e Htx Hc
                       (or_introl Hp)).
      * rewrite Z.geb_leb in E. apply Z.leb_gt in E. lia.
  - intros b d' e Hb. unfold newBatchTx. cbv zeta.
    now apply (Hbegin (batchTx_literal b) d' e).
Qed.

Lemma store_failure_is_fatal_witness :
  Commit (set_locked (example_state 10 4 [bolt.FlushFails]) false)
  = Fatal (cannot_commit_tx ErrFlush)
  /\ Unlock (example_state 3 4 [bolt.FlushFails])
     = Fatal (cannot_commit_tx ErrFlush).
Proof.
  destruct store_failure_is_fatal as (H & _).
  split.
  - destruct (H (set_locked (example_state 10 4 [bolt.FlushFails]) false)
                _ _ _ _ eq_refl eq_refl) as (_ & H1 & _).
    apply H1; [reflexivity | vm_compute; discriminate].
  - destruct (H (example_state 3 4 [bolt.FlushFails])
                _ _ _ _ eq_refl eq_refl) as (_ & _ & H1).
    apply H1; vm_compute; discriminate.
Defined.

(** ** One writer *)

Lemma commit_single_writer (stop : bool) (t t' : batchTx) :
  commit stop t = Done t' ->
  (tx t = None -> stop = false -> single_writer t')
  /\ (single_writer t -> single_writer t').
Proof.
  intros H. unfold single_writer, open_handle.
  apply commit_Done in H as [H|[H|H]].
  - destruct H as (h & Htx & _ & _ & ->). split; [congruence | auto].
  - destruct H as [Htx H].
    apply begin_new_tx_Done in H as [[-> ->]|(-> & _ & _ & ->)].
    + split; [discriminate|]. intros [Hn _]. congruence.
    + cbn. split; intros; split; congruence || reflexivity.
  - destruct H as (h & d & Htx & _ & Hc & H).
    apply Tx_Commit_None in Hc as (_ & _ & _ & Hl & _).
    apply begin_new_tx_Done in H as [[-> ->]|(-> & _ & _ & ->)]; cbn.
    + split; [congruence|]. intros _. split; [discriminate | exact Hl].
    + split; intros; split; congruence || reflexivity.
Qed.

Lemma Unlock_single_writer (t t' : batchTx) :
  single_writer t -> Unlock t = Done t' -> single_writer t'.
Proof.
  intros Hs H.
  apply Unlock_Done in H as [(_ & _ & ->)|(_ & t1 & Hc & _ & ->)].
  - exact Hs.
  - exact (proj2 (commit_single_writer _ _ _ Hc) Hs).
Qed.

Lemma locked_commit_single_writer (stop : bool) (t t' : batchTx) :
  (tx t = None /\ stop = false) \/ single_writer t ->
  (t0 <- Lock t ;; t1 <- commit stop t0 ;; Unlock t1) = Done t' ->
  single_writer t'.
Proof.
  intros Hs. unfold Lock. destruct (locked t); [discriminate|].
  cbn [bind].
  destruct (commit stop (set_locked t true)) as [t1| | |] eqn:Hc;
    cbn [bind]; try discriminate.
  intros H. destruct (commit_single_writer _ _ _ Hc) as [Ha Hb].
  apply (Unlock_single_writer t1 t'); [|exact H].
  destruct Hs as [[Hn Hst]|Hsw]; [now apply Ha | now apply Hb].
Qed.

(** X10: one write transaction at a time.  The state the constructor
    returns has a handle and holds the store's single-writer lock exactly
    while that handle is open, and every call of the interface that
    returns keeps it so: a new transaction is only ever begun after the
    previous one has been committed, and a committed handle never leaves
    the store's writer lock held. *)
Theorem single_writer_kept :
  (forall (b : Backend) (t : batchTx),
      newBatchTx b = Done t -> single_writer t)
  /\ (forall (S : Type) (c : call S) (t t' : batchTx) (s s' : S)
             (r : returned),
      single_writer t -> invoke c t s = Done (t', s', r) ->
      single_writer t').
Proof.
  split.
  - intros b t H. unfold newBatchTx, Commit in H. cbv zeta in H.
    exact (locked_commit_single_writer false (batchTx_literal b) t
             (or_introl (conj eq_refl eq_refl)) H).
  - intros S c t t' s s' r Hs H.
    destruct (is_mutation c) eqn:Hm.
    + destruct (mutation_Done c _ _ _ _ _ Hm H)
        as (Hb & Hid & _ & _ & _ & Ho & Ho').
      split; [|rewrite Hb, Ho'; rewrite <- Ho; exact (proj2 Hs)].
      unfold open_handle in Ho'. destruct (tx t'); discriminate.
    + destruct c; try discriminate Hm.
      * invert_invoke H. unfold Lock in E.
        destruct (locked t); [discriminate|]. inversion E. exact Hs.
      * invert_invoke H. exact (Unlock_single_writer t _ Hs E).
      * invert_invoke H. exact Hs.
      * invert_invoke H. exact Hs.
      * invert_invoke H.
        exact (locked_commit_single_writer false t _ (or_intror Hs) E).
      * invert_invoke H.
        exact (locked_commit_single_writer true t _ (or_intror Hs) E).
Qed.

(** ** The commit counter over a run *)

Lemma wrap64_range (z : Z) : min_int64 <= wrap64 z <= max_int64.
Proof.
  unfold wrap64, min_int64, max_int64.
  pose proof (Z.mod_pos_bound (z + 2 ^ 63) (2 ^ 64) ltac:(lia)). lia.
Qed.

Lemma wrap64_add (a b : Z) : wrap64 (wrap64 a + b) = wrap64 (a + b).
Proof.
  unfold wrap64. f_equal.
  replace ((a + 2 ^ 63) mod 2 ^ 64 - 2 ^ 63 + b + 2 ^ 63)
    with ((a + 2 ^ 63) mod 2 ^ 64 + b) by lia.
  rewrite Zplus_mod_idemp_l. f_equal. lia.
Qed.

Lemma Unlock_limit (t t' : batchTx) :
  Unlock t = Done t' -> batchLimit (backend t') = batchLimit (backend t).
Proof.
  intros H.
  apply Unlock_Done in H as [(_ & _ & ->)|(_ & t1 & Hc & _ & ->)];
    [reflexivity|].
  now destruct (commit_frame _ _ _ Hc) as (_ & Hb & _).
Qed.

Lemma locked_commit_limit (stop : bool) (t t' : batchTx) :
  (t0 <- Lock t ;; t1 <- commit stop t0 ;; Unlock t1) = Done t' ->
  batchLimit (backend t') = batchLimit (backend t).
Proof.
  unfold Lock. destruct (locked t); [discriminate|]. cbn [bind].
  destruct (commit stop (set_locked t true)) as [t1| | |] eqn:Hc;
    cbn [bind]; try discriminate.
  intros Hu. rewrite (Unlock_limit _ _ Hu).
  now destruct (commit_frame _ _ _ Hc) as (_ & Hb & _).
Qed.

(** What one returning call does to the flush count, the commit counter
    and the threshold. *)
Lemma invoke_counts {S : Type} (c : call S) (t t' : batchTx) (s s' : S)
  (r : returned) :
  invoke c t s = Done (t', s', r) ->
  batchLimit (backend t') = batchLimit (backend t)
  /\ ((flushes t' = flushes t
       /\ commits (backend t') = commits (backend t))
      \/ (flushes t' = flushes t + 1
          /\ commits (backend t') = wrap64 (commits (backend t) + 1))).
Proof.
  intros H.
  assert (Hsame : backend t' = backend t ->
            batchLimit (backend t') = batchLimit (backend t)
            /\ ((flushes t' = flushes t
                 /\ commits (backend t') = commits (backend t))
                \/ (flushes t' = flushes t + 1
                    /\ commits (backend t')
                       = wrap64 (commits (backend t) + 1)))).
  { intros E. unfold flushes. rewrite E. auto. }
  destruct (is_mutation c) eqn:Hm.
  - apply Hsame. now destruct (mutation_Done c _ _ _ _ _ Hm H).
  - destruct c; try discriminate Hm.
    + invert_invoke H. unfold Lock in E.
      destruct (locked t); [discriminate|]. inversion E. subst t'.
      now apply Hsame.
    + invert_invoke H. split; [now apply Unlock_limit|].
      destruct (Unlock_effect _ _ E) as [[(A & B & _)|(A & B & _)] _]; auto.
    + invert_invoke H. now apply Hsame.
    + invert_invoke H. now apply Hsame.
    + invert_invoke H. split; [now apply (locked_commit_limit false)|].
      destruct (locked_commit_effect false _ _ E)
        as ([(A & B & _)|(A & B & _)] & _); auto.
    + invert_invoke H. split; [now apply (locked_commit_limit true)|].
      destruct (locked_commit_effect true _ _ E)
        as ([(A & B & _)|(A & B & _)] & _); auto.
Qed.

(** X11: over any sequence of calls that all return, the commit counter
    advances by exactly the number of durable flushes the store performed
    in between (modulo 2^64), at most one per call; the flush count never
    goes down and the threshold never changes. *)
Theorem commits_count_flushes (S : Type) (cs : list (call S))
  (t t' : batchTx) (s s' : S)
  (Hc : min_int64 <= commits (backend t) <= max_int64)
  (H : run cs t s = Done (t', s')) :
  flushes t <= flushes t' <= flushes t + Z.of_nat (List.length cs)
  /\ commits (backend t')
     = wrap64 (commits (backend t) + (flushes t' - flushes t))
  /\ batchLimit (backend t') = batchLimit (backend t).
Proof.
  revert t s Hc H. induction cs as [|c cs IH]; intros t s Hc H.
  - cbn in H. inversion H. subst. cbn [List.length].
    split; [lia|]. split; [|reflexivity].
    rewrite wrap64_id; lia.
  - cbn [run] in H.
    destruct (invoke c t s) as [[[t1 s1] r]| | |] eqn:E; cbn [bind] in H;
      try discriminate.
    cbn [fst snd] in H.
    destruct (invoke_counts c t t1 s s1 r E) as (Hb & Hcnt).
    assert (Hc1 : min_int64 <= commits (backend t1) <= max_int64).
    { destruct Hcnt as [(_ & ->)|(_ & ->)];
        [exact Hc | apply wrap64_range]. }
    destruct (IH t1 s1 Hc1 H) as (Hf & Hcm & Hb').
    cbn [List.length]. rewrite Nat2Z.inj_succ.
    split; [|split; [|congruence]].
    + destruct Hcnt as [(A & _)|(A & _)]; lia.
    + rewrite Hcm. destruct Hcnt as [(A & B)|(A & B)]; rewrite A, B.
      * reflexivity.
      * rewrite wrap64_add. f_equal. lia.
Qed.

Lemma commits_count_flushes_witness :
  min_int64 <= commits (backend (example_state 5 4 [])) <= max_int64
  /\ exists t',
       run [call_UnsafePut (bs "key") (bs "d") (bs "4"); call_Unlock;
            call_Lock; call_Unlock; call_CommitAndStop]
         (example_state 5 4 []) tt
       = Done (t', tt)
       /\ flushes (example_state 5 4 []) <= flushes t'
       /\ commits (backend t')
          = wrap64 (commits (backend (example_state 5 4 []))
                    + (flushes t' - flushes (example_state 5 4 []))).
Proof.
  assert (Hc : min_int64 <= commits (backend (example_state 5 4 []))
               <= max_int64) by (split; vm_compute; discriminate).
  split; [exact Hc|].
  assert (Hrun : exists t',
             run [call_UnsafePut (bs "key") (bs "d") (bs "4"); call_Unlock;
                  call_Lock; call_Unlock; call_CommitAndStop]
               (example_state 5 4 []) tt
             = Done (t', tt))
    by (eexists; vm_compute; reflexivity).
  destruct Hrun as [t' Hrun]. exists t'. split; [exact Hrun|].
  destruct (commits_count_flushes unit _ _ _ _ _ Hc Hrun)
    as ([Hle _] & Hcm & _).
  split; assumption.
Defined.

(** ** Edges of the range scan *)

Lemma UnsafeRange_scan (t : batchTx) (name key endKey : bytes) (limit : Z)
  (ps : bolt.table bytes) :
  open_handle t = true -> visible t name = Some ps -> bolt.ordered ps ->
  endKey <> [] ->
  UnsafeRange name key endKey limit t
  = Done (map fst (scan_spec ps key endKey limit),
          map snd (scan_spec ps key endKey limit)).
Proof.
  unfold open_handle, visible, bucket_of, UnsafeRange, bolt.Tx_Bucket.
  destruct (tx t) as [h|]; [|discriminate].
  intros ->. cbn [bind].
  destruct (bolt.lookup name (bolt.tx_root h)) as [b|]; [|discriminate].
  cbn [option_map]. intros E Ho Hne. inversion E as [Hps].
  destruct (bolt.len endKey =? 0) eqn:El;
    [apply len_zero in El; contradiction|].
  f_equal. unfold bolt.Cursor_Seek. rewrite Hps.
  rewrite range_loop_spec; [| now apply seek_ordered | simpl; lia].
  cbn zeta. rewrite (seek_filter _ _ Ho), filter_twice.
  unfold scan_spec. cbn [List.length app]. rewrite Nat.sub_0_r.
  reflexivity.
Qed.

Lemma first_hit (key endKey v : bytes) (ps : bolt.table bytes) :
  bolt.ordered ps -> In (key, v) ps -> bytes_lt key endKey ->
  exists rest,
    filter (fun kv => within key endKey (fst kv)) ps = (key, v) :: rest.
Proof.
  intros Ho Hin Hlt. induction ps as [|[k2 v2] ps IH]; [destruct Hin|].
  pose proof (ordered_inv _ _ _ Ho) as [Ho' Hall].
  destruct Hin as [E|Hin].
  - inversion E. subst. cbn [filter fst]. unfold within.
    assert (E1 : bytes_ltb key key = false).
    { apply bytes_ltb_ge. unfold bytes_le. now rewrite bytes_cmp_refl. }
    assert (E2 : bytes_ltb key endKey = true) by now apply bytes_ltb_lt.
    rewrite E1, E2. cbn. eexists. reflexivity.
  - rewrite Forall_forall in Hall. specialize (Hall _ Hin). cbn in Hall.
    cbn [filter fst]. unfold within at 1.
    assert (E1 : bytes_ltb k2 key = true) by now apply bytes_ltb_lt.
    rewrite E1. cbn. now apply IH.
Qed.

(** X12: the edges of a range scan over a bucket whose keys are in order.
    With a non-empty [endKey] that is not above [key], the scan is empty,
    whatever the bucket holds.  With [key] present and below [endKey],
    the scan starts with exactly the pair the point lookup of [key]
    returns, for every limit. *)
Theorem range_scan_edges (t : batchTx) (name key endKey : bytes) (limit : Z)
  (ps : bolt.table bytes)
  (Hopen : open_handle t = true)
  (Hv : visible t name = Some ps)
  (Ho : bolt.ordered ps)
  (Hne : endKey <> []) :
  (bytes_le endKey key ->
   UnsafeRange name key endKey limit t = Done ([], []))
  /\ (forall v,
      In (key, v) ps -> bytes_lt key endKey ->
      UnsafeRange name key [] limit t = Done ([key], [v])
      /\ exists keys vs,
           UnsafeRange name key endKey limit t = Done (key :: keys, v :: vs)).
Proof.
  rewrite (UnsafeRange_scan t name key endKey limit ps Hopen Hv Ho Hne).
  split.
  - intros Hle.
    assert (E : filter (fun kv => within key endKey (fst kv)) ps = []).
    { apply filter_none. apply Forall_forall. intros [k v] _. cbn.
      unfold within.
      destruct (bytes_ltb k key) eqn:E1; [reflexivity|].
      destruct (bytes_ltb k endKey) eqn:E2; [|reflexivity].
      apply bytes_ltb_lt in E2. apply bytes_ltb_ge in E1.
      pose proof (bytes_lt_le_trans _ _ _ E2 Hle) as Hlt.
      pose proof (bytes_le_lt_trans _ _ _ E1 Hlt) as Hkk.
      now apply bytes_lt_irrefl in Hkk. }
    unfold scan_spec. rewrite E.
    destruct (limit >? 0); now rewrite ?firstn_nil.
  - intros v Hin Hlt. split.
    + rewrite (point_lookup t name key limit ps Hopen Hv).
      now rewrite (In_lookup _ _ _ Ho Hin).
    + destruct (first_hit key endKey v ps Ho Hin Hlt) as [rest E].
      unfold scan_spec. rewrite E.
      destruct (limit >? 0) eqn:Hl.
      * apply Z.gtb_lt in Hl.
        replace (Z.to_nat limit) with (S (Z.to_nat limit - 1)) by lia.
        cbn [firstn map fst snd]. eexists _, _. reflexivity.
      * cbn [map fst snd]. eexists _, _. reflexivity.
Qed.

Lemma range_scan_edges_witness :
  open_handle (example_state 10 4 []) = true
  /\ bolt.ordered (bolt.pairs example_bucket)
  /\ UnsafeRange (bs "key") (bs "c") (bs "a") 0 (example_state 10 4 [])
     = Done ([], []).
Proof.
  split; [reflexivity|]. split; [reflexivity|].
  destruct (range_scan_edges (example_state 10 4 []) (bs "key") (bs "c")
              (bs "a") 0 (bolt.pairs example_bucket)
              eq_refl eq_refl eq_refl) as [H _]; [discriminate|].
  apply H. vm_compute. discriminate.
Defined.

(** ** After the stop *)

(** The state [CommitAndStop] returns when there was a handle. *)
Lemma CommitAndStop_Done (t t1 : batchTx) :
  tx t <> None -> CommitAndStop t = Done t1 ->
  exists h,
    tx t = Some h /\ tx t1 = Some (bolt.close h)
    /\ locked t1 = false /\ pending t1 = 0.
Proof.
  intros Hn H. unfold CommitAndStop, Lock in H.
  destruct (locked t); [discriminate|]. cbn [bind] in H.
  destruct (commit true (set_locked t true)) as [t2| | |] eqn:Hc;
    cbn [bind] in H; try discriminate.
  destruct (tx t) as [h|] eqn:Htx; [|congruence].
  destruct (commit_frame _ _ _ Hc) as (_ & _ & Hk & _ & Hst).
  destruct (Hst eq_refl h Htx) as [Htx2 _].
  assert (Hp : pending t2 = 0).
  { destruct (commit_counts _ _ _ Hc)
      as [(_ & _ & _ & [E|(_ & E & _)])|(_ & _ & E & _)];
      [cbn in E; congruence | discriminate | exact E]. }
  assert (Hn2 : tx t2 <> None) by congruence.
  rewrite (Unlock_idle _ _ Hn2 Hp H).
  exists h. repeat split; auto.
Qed.

(** X13: [CommitAndStop] is terminal for everything that goes through the
    handle.  After it has returned, the handle field holds a closed
    transaction, and none of the mutations, none of the reads and no
    second [CommitAndStop] returns: each of them ends the process. *)
Theorem stopped_is_terminal (t t1 : batchTx)
  (Hn : tx t <> None)
  (H : CommitAndStop t = Done t1) :
  open_handle t1 = false
  /\ forall (S : Type) (c : call S) (s : S),
       uses_handle c = true ->
       returns (invoke c t1 s) = false
       /\ invoke c t1 s <> Blocked.
Proof.
  destruct (CommitAndStop_Done _ _ Hn H) as (h & _ & Htx & Hl & Hp).
  split; [unfold open_handle; now rewrite Htx|].
  intros S c s Hu. destruct c; try discriminate Hu; cbn [invoke].
  - unfold UnsafeCreateBucket, bolt.Tx_CreateBucket. rewrite Htx. cbn.
    split; [reflexivity | discriminate].
  - unfold UnsafePut, unsafePut, bolt.Tx_Bucket. rewrite Htx. cbn.
    split; [reflexivity | discriminate].
  - unfold UnsafeSeqPut, unsafePut, bolt.Tx_Bucket. rewrite Htx. cbn.
    split; [reflexivity | discriminate].
  - unfold UnsafeRange, bolt.Tx_Bucket. rewrite Htx. cbn.
    split; [reflexivity | discriminate].
  - unfold UnsafeDelete, bolt.Tx_Bucket. rewrite Htx. cbn.
    split; [reflexivity | discriminate].
  - unfold UnsafeForEach, bolt.Tx_Bucket. rewrite Htx. cbn.
    split; [reflexivity | discriminate].
  - unfold CommitAndStop, Lock. rewrite Hl. cbn [bind].
    unfold commit. cbn [tx set_locked]. rewrite Htx.
    rewrite andb_false_r. unfold bolt.Tx_Commit. cbn.
    split; [reflexivity | discriminate].
Qed.

Lemma stopped_is_terminal_witness :
  tx (set_locked (example_state 10 4 []) false) <> None
  /\ exists t1,
       CommitAndStop (set_locked (example_state 10 4 []) false) = Done t1
       /\ returns (UnsafePut (bs "key") (bs "a") (bs "1") t1) = false.
Proof.
  split; [discriminate|].
  eexists. split; [reflexivity|].
  destruct (stopped_is_terminal (set_locked (example_state 10 4 []) false) _
              ltac:(discriminate) eq_refl) as [_ Hc].
  destruct (Hc unit (call_UnsafePut (bs "key") (bs "a") (bs "1")) tt
              eq_refl) as [Hr _].
  cbn [invoke] in Hr.
  destruct (UnsafePut (bs "key") (bs "a") (bs "1") _); [discriminate Hr | | |];
    reflexivity.
Defined.

(** ** A bracket *)

Lemma run_app {S : Type} (cs1 cs2 : list (call S)) (t : batchTx) (s : S) :
  run (cs1 ++ cs2) t s
  = r <- run cs1 t s ;; run cs2 (fst r) (snd r).
Proof.
  revert t s. induction cs1 as [|c cs1 IH]; intros t s; cbn [app run bind].
  - reflexivity.
  - destruct (invoke c t s) as [[[t1 s1] r]| | |]; cbn [bind fst snd];
      [apply IH | reflexivity | reflexivity | reflexivity].
Qed.

Lemma run_mutations {S : Type} (cs : list (call S)) :
  forall (t t1 : batchTx) (s s1 : S),
    forallb is_mutation cs = true -> cs <> [] ->
    run cs t s = Done (t1, s1) ->
    backend t1 = backend t /\ handle_id t1 = handle_id t
    /\ locked t1 = locked t /\ s1 = s
    /\ open_handle t1 = true
    /\ (min_int64 <= pending t ->
        pending t + Z.of_nat (List.length cs) <= max_int64 ->
        pending t1 = pending t + Z.of_nat (List.length cs)).
Proof.
  induction cs as [|c cs IH]; intros t t1 s s1 Hm Hne H; [congruence|].
  cbn [forallb] in Hm. apply andb_prop in Hm as [Hc Hm].
  cbn [run] in H.
  destruct (invoke c t s) as [[[t2 s2] r]| | |] eqn:E; cbn [bind] in H;
    try discriminate.
  cbn [fst snd] in H.
  destruct (mutation_Done c t t2 s s2 r Hc E)
    as (Hb & Hid & Hl & Hs & Hp & _ & Ho).
  assert (Hw : min_int64 <= pending t ->
               pending t + 1 <= max_int64 ->
               wrap64 (pending t + 1) = pending t + 1).
  { intros. apply wrap64_id. unfold min_int64, max_int64 in *. lia. }
  destruct cs as [|c' cs].
  - cbn in H. inversion H. subst t1 s1.
    repeat split; auto. intros Hlo Hhi. cbn [List.length] in *.
    rewrite Hp. apply Hw; lia.
  - destruct (IH t2 t1 s2 s1 Hm ltac:(discriminate) H)
      as (Hb' & Hid' & Hl' & Hs' & Ho' & Hp').
    repeat split; try congruence.
    intros Hlo Hhi. cbn [List.length] in *.
    rewrite Nat2Z.inj_succ in *.
    rewrite Hp'; rewrite Hp, Hw; unfold min_int64 in *; lia.
Qed.

(** X14: a bracket commits at its end, and only there, when the threshold
    is reached.  Take the lock, make [n >= 1] mutations that all return,
    release the lock (handle open, counters in range).  If the pending
    counter has then reached the threshold, exactly one flush has
    happened, the commit counter is one higher and the pending counter is
    0; otherwise nothing was flushed and the pending counter is [n]
    higher.  Either way the lock is free again and the handle is open. *)
Theorem bracket_commits_at_threshold (S : Type) (cs : list (call S))
  (t t' : batchTx) (s s' : S)
  (Hm : forallb is_mutation cs = true)
  (Hcs : cs <> [])
  (Hp : 0 <= pending t)
  (Hmax : pending t + Z.of_nat (List.length cs) <= max_int64)
  (H : run (call_Lock :: cs ++ [call_Unlock]) t s = Done (t', s')) :
  locked t = false /\ locked t' = false /\ open_handle t' = true /\ s' = s
  /\ (pending t + Z.of_nat (List.length cs) >= batchLimit (backend t) ->
      flushes t' = flushes t + 1
      /\ commits (backend t') = wrap64 (commits (backend t) + 1)
      /\ pending t' = 0)
  /\ (pending t + Z.of_nat (List.length cs) < batchLimit (backend t) ->
      backend t' = backend t
      /\ handle_id t' = handle_id t
      /\ pending t' = pending t + Z.of_nat (List.length cs)).
Proof.
  cbn [run invoke] in H. unfold Lock in H.
  destruct (locked t) eqn:Hl; [discriminate|]. cbn [bind fst snd] in H.
  rewrite run_app in H.
  destruct (run cs (set_locked t true) s) as [[t1 s1]| | |] eqn:Hr;
    cbn [bind fst snd] in H; try discriminate.
  destruct (run_mutations cs (set_locked t true) t1 s s1 Hm Hcs Hr)
    as (Hb & Hid & Hl1 & Hs1 & Ho1 & Hpn).
  specialize (Hpn ltac:(cbn; unfold min_int64; lia) Hmax).
  cbn [pending set_locked backend locked] in *.
  cbn [run invoke] in H.
  destruct (Unlock t1) as [t2| | |] eqn:Hu; cbn [bind fst snd] in H;
    try discriminate.
  inversion H. subst t2 s1 s'. clear H.
  assert (Hlen : 0 < Z.of_nat (List.length cs)).
  { destruct cs; [congruence | cbn [List.length]; lia]. }
  split; [reflexivity|].
  assert (Hf1 : flushes t1 = flushes t) by (unfold flushes; now rewrite Hb).
  apply Unlock_Done in Hu as [(Hlt & _ & ->)|(Hge & t2 & Hc & _ & ->)].
  - rewrite Hb, Hpn in Hlt.
    split; [reflexivity|]. split; [exact Ho1|]. split; [reflexivity|].
    split; [intros Hge; lia|].
    intros _. split; [exact Hb|]. split; [exact Hid | exact Hpn].
  - rewrite Hb, Hpn in Hge.
    destruct (commit_counts _ _ _ Hc)
      as [(_ & _ & _ & [E|(E & _)])|(F1 & F2 & F3 & _)].
    + unfold open_handle in Ho1. rewrite E in Ho1. discriminate.
    + lia.
    + assert (Ho2 : open_handle t2 = true).
      { destruct (commit_sizes _ _ _ Hc) as [(_ & _ & [E|E])|(_ & P & _)].
        - discriminate.
        - subst t2. lia.
        - destruct P as (h & P1 & P2 & _). unfold open_handle.
          now rewrite P1. }
      split; [reflexivity|]. split; [exact Ho2|]. split; [reflexivity|].
      split; [|intros Hlt; lia].
      intros _. split; [|split; [|reflexivity]].
      * change (flushes t2 = flushes t + 1). lia.
      * change (commits (backend t2) = wrap64 (commits (backend t) + 1)).
        now rewrite F2, Hb.
Qed.

Lemma bracket_commits_at_threshold_witness :
  0 <= pending (set_locked (example_state 5 4 []) false)
  /\ exists t',
       run (call_Lock
              :: [call_UnsafePut (bs "key") (bs "d") (bs "4");
                  call_UnsafeDelete (bs "key") (bs "a")]
              ++ [call_Unlock])
         (set_locked (example_state 5 4 []) false) tt
       = Done (t', tt)
       /\ flushes t' = flushes (set_locked (example_state 5 4 []) false) + 1
       /\ pending t' = 0.
Proof.
  assert (Hp : 0 <= pending (set_locked (example_state 5 4 []) false))
    by (vm_compute; discriminate).
  split; [exact Hp|].
  assert (Hrun : exists t',
             run (call_Lock
                    :: [call_UnsafePut (bs "key") (bs "d") (bs "4");
                        call_UnsafeDelete (bs "key") (bs "a")]
                    ++ [call_Unlock])
               (set_locked (example_state 5 4 []) false) tt
             = Done (t', tt))
    by (eexists; vm_compute; reflexivity).
  destruct Hrun as [t' Hrun]. exists t'. split; [exact Hrun|].
  assert (Hmax : pending (set_locked (example_state 5 4 []) false)
                 + Z.of_nat
                     (List.length
                        [@call_UnsafePut unit (bs "key") (bs "d") (bs "4");
                         call_UnsafeDelete (bs "key") (bs "a")])
                 <= max_int64) by (vm_compute; discriminate).
  destruct (bracket_commits_at_threshold unit
              [call_UnsafePut (bs "key") (bs "d") (bs "4");
               call_UnsafeDelete (bs "key") (bs "a")]
              _ _ _ _ eq_refl ltac:(discriminate) Hp Hmax Hrun)
    as (_ & _ & _ & _ & Hge & _).
  destruct Hge as (H1 & _ & H2); [vm_compute; discriminate|].
  split; assumption.
Defined.

(** ** A visitor that never fails *)

(** X15: with a visitor that fails on no pair of the bucket,
    [UnsafeForEach] on an existing bucket returns nil after it has called
    the visitor on every pair of the bucket, once each and in the stored
    order; the batch transaction is not changed by the call. *)
Theorem for_each_visits_all (S : Type)
  (visitor : bytes -> bytes -> S -> S * option error)
  (t : batchTx) (name : bytes) (ps : bolt.table bytes) (s : S)
  (Hopen : open_handle t = true)
  (Hv : visible t name = Some ps)
  (Hok : forall k v s0, In (k, v) ps -> snd (visitor k v s0) = None) :
  exists s',
    UnsafeForEach name (recording visitor) t (s, []) = Done ((s', ps), None)
    /\ UnsafeForEach name visitor t s = Done (s', None)
    /\ forall t' s1 r,
         invoke (call_UnsafeForEach name visitor) t s = Done (t', s1, r) ->
         t' = t /\ s1 = s' /\ r = ret_error None.
Proof.
  unfold open_handle in Hopen.
  destruct (tx t) as [h|] eqn:Htx; [|discriminate].
  assert (Hl : exists b, bolt.lookup name (bolt.tx_root h) = Some b
                         /\ bolt.pairs b = ps).
  { unfold visible, bucket_of in Hv. rewrite Htx, Hopen in Hv.
    destruct (bolt.lookup name (bolt.tx_root h)) as [b|]; [|discriminate].
    exists b. split; [reflexivity|]. now inversion Hv. }
  destruct Hl as (b & Hl & Hps).
  destruct (for_each_recording visitor ps s [])
    as (s' & seen & err & H1 & H2 & [rest H3] & H4).
  assert (Herr : err = None).
  { destruct err as [e|]; [|reflexivity].
    destruct H4 as (pre & k & v & s1 & E1 & _ & E3).
    assert (Hin : In (k, v) ps).
    { rewrite H3, E1. apply in_or_app. left. apply in_or_app. right.
      now left. }
    specialize (Hok k v s1 Hin). rewrite E3 in Hok. discriminate. }
  subst err. subst seen.
  assert (Hplain : UnsafeForEach name visitor t s = Done (s', None)).
  { unfold UnsafeForEach, bolt.Tx_Bucket, bolt.Bucket_ForEach.
    rewrite Htx, Hopen. cbn [bind]. now rewrite Hl, Hps, H2. }
  exists s'. split; [|split; [exact Hplain|]].
  - unfold UnsafeForEach, bolt.Tx_Bucket, bolt.Bucket_ForEach.
    rewrite Htx, Hopen. cbn [bind]. now rewrite Hl, Hps, H1.
  - intros t' s1 r H. cbn [invoke] in H. rewrite Hplain in H.
    cbn in H. inversion H. repeat split.
Qed.

Lemma for_each_visits_all_witness :
  open_handle (example_state 10 4 []) = true
  /\ exists s',
       UnsafeForEach (bs "key") (recording (fun _ _ (u : unit) => (u, None)))
         (example_state 10 4 []) (tt, [])
       = Done ((s', bolt.pairs example_bucket), None).
Proof.
  split; [reflexivity|].
  destruct (for_each_visits_all unit (fun _ _ u => (u, None))
              (example_state 10 4 []) (bs "key") (bolt.pairs example_bucket)
              tt eq_refl eq_refl (fun _ _ _ _ => eq_refl))
    as (s' & H & _).
  exists s'. exact H.
Defined.

(** ** The published metrics *)

(** What a returning [commit] has done to the handle and the size metrics:
    it kept the transaction in the handle field and left the metrics
    alone, or it began a new transaction and published its sizes. *)
Lemma commit_begun (stop : bool) (t t' : batchTx) :
  commit stop t = Done t' ->
  (handle_id t' = handle_id t
   /\ size (backend t') = size (backend t)
   /\ sizeInUse (backend t') = sizeInUse (backend t)
   /\ (stop = true \/ t' = t))
  \/ (stop = false /\ handle_id t' <> handle_id t /\ published t').
Proof.
  intros H. unfold handle_id. apply commit_Done in H as [H|[H|H]].
  - destruct H as (h & Htx & Hp & Hs & ->). left. auto.
  - destruct H as [Htx H].
    apply begin_new_tx_Done in H as [[-> ->]|(-> & _ & _ & ->)].
    + left. auto.
    + right. split; [reflexivity|].
      split; [|apply after_begin_published].
      rewrite Htx. discriminate.
  - destruct H as (h & d & Htx & Hp & Hc & H).
    apply Tx_Commit_None in Hc as (_ & _ & _ & _ & _ & Hid & _).
    apply begin_new_tx_Done in H as [[-> ->]|(-> & _ & _ & ->)].
    + left. rewrite Htx. cbn. auto.
    + right. split; [reflexivity|].
      split; [|apply after_begin_published].
      rewrite Htx. cbn. intros E. inversion E. lia.
Qed.

Lemma Unlock_begun (t t' : batchTx) :
  Unlock t = Done t' ->
  (backend t' = backend t /\ tx t' = tx t)
  \/ (handle_id t' <> handle_id t /\ published t').
Proof.
  intros H.
  apply Unlock_Done in H as [(_ & _ & ->)|(_ & t1 & Hc & _ & ->)].
  - left. auto.
  - destruct (commit_begun _ _ _ Hc)
      as [(_ & _ & _ & [E|E])|(_ & Hid & h & P)].
    + discriminate.
    + subst t1. left. auto.
    + right. split; [exact Hid | exists h; exact P].
Qed.

Lemma published_id (t : batchTx) : published t -> handle_id t <> None.
Proof.
  intros (h & Htx & _). unfold handle_id. rewrite Htx. discriminate.
Qed.

Lemma published_same (t t' : batchTx) :
  backend t' = backend t -> tx t' = tx t -> published t -> published t'.
Proof.
  intros Hb Htx (h & P). exists h. rewrite Hb, Htx. exact P.
Qed.

(** The same for [Commit] (stop = false) and [CommitAndStop]
    (stop = true). *)
Lemma locked_commit_begun (stop : bool) (t t' : batchTx) :
  (t0 <- Lock t ;; t1 <- commit stop t0 ;; Unlock t1) = Done t' ->
  (handle_id t' = handle_id t
   /\ size (backend t') = size (backend t)
   /\ sizeInUse (backend t') = sizeInUse (backend t))
  \/ (handle_id t' <> handle_id t /\ published t').
Proof.
  unfold Lock. destruct (locked t); [discriminate|]. cbn [bind].
  set (t0 := set_locked t true).
  change (handle_id t) with (handle_id t0).
  change (backend t) with (backend t0).
  destruct (commit stop t0) as [t1| | |] eqn:Hc; cbn [bind];
    try discriminate.
  intros Hu.
  pose proof (commit_frame _ _ _ Hc) as (_ & _ & Hn1 & Hn2 & _).
  destruct (commit_counts _ _ _ Hc)
    as [(_ & _ & _ & [Hnil|(Hp & Hst & E)])|(_ & _ & F3 & Hn & _)].
  - (* there was no handle *)
    assert (Hid0 : handle_id t0 = None) by (unfold handle_id; now rewrite Hnil).
    destruct (Unlock_begun _ _ Hu) as [(B & T)|(Hid & P)].
    + destruct (commit_begun _ _ _ Hc)
        as [(I1 & S1 & S2 & _)|(_ & I1 & P1)].
      * left. unfold handle_id in *. rewrite B, T. auto.
      * right. split; [|exact (published_same _ _ B T P1)].
        unfold handle_id in *. now rewrite T.
    + right. split; [|exact P]. rewrite Hid0. now apply published_id.
  - (* nothing to do *)
    subst t1.
    rewrite (Unlock_idle _ _ (Hn2 Hst) Hp Hu). left. cbn. auto.
  - (* one flush *)
    rewrite (Unlock_idle _ _ (Hn1 Hn) F3 Hu).
    destruct (commit_begun _ _ _ Hc) as [(I1 & S1 & S2 & _)|(_ & I1 & P1)].
    + left. cbn. auto.
    + right. split; [exact I1 | now apply published_unlocked].
Qed.

(** C3 as amended: for every call of the interface that returns,
    - a call other than [Unlock], [Commit] and [CommitAndStop] flushes
      nothing and leaves the commit counter, the size and the size-in-use
      unchanged;
    - the commit counter follows the flushes: the call flushed nothing and
      the counter is unchanged, or it flushed once and the counter is one
      higher;
    - the size and size-in-use are written exactly when a new transaction
      is begun, not when one is flushed: either the handle field holds the
      transaction it held and both metrics are unchanged, or the call has
      put a new transaction in the handle field and the metrics are the
      size of that transaction and that size minus free pages times page
      size;
    - [CommitAndStop] on an existing handle flushes, counts the commit,
      and leaves the size and size-in-use as they were. *)
Theorem metrics_follow_flush_and_begin (S : Type) (c : call S)
  (t t' : batchTx) (s s' : S) (r : returned)
  (H : invoke c t s = Done (t', s', r)) :
  (runs_commit c = false ->
     flushes t' = flushes t
     /\ commits (backend t') = commits (backend t)
     /\ size (backend t') = size (backend t)
     /\ sizeInUse (backend t') = sizeInUse (backend t))
  /\ ((flushes t' = flushes t
       /\ commits (backend t') = commits (backend t))
      \/ (flushes t' = flushes t + 1
          /\ commits (backend t') = wrap64 (commits (backend t) + 1)))
  /\ ((handle_id t' = handle_id t
       /\ size (backend t') = size (backend t)
       /\ sizeInUse (backend t') = sizeInUse (backend t))
      \/ (handle_id t' <> handle_id t /\ published t' /\ tx t' <> tx t))
  /\ (c = call_CommitAndStop -> tx t <> None ->
      flushes t' = flushes t + 1
      /\ commits (backend t') = wrap64 (commits (backend t) + 1)
      /\ size (backend t') = size (backend t)
      /\ sizeInUse (backend t') = sizeInUse (backend t)).
Proof.
  assert (Hneq : handle_id t' <> handle_id t -> tx t' <> tx t).
  { intros Hid E. apply Hid. unfold handle_id. now rewrite E. }
  assert (Hsame : backend t' = backend t -> handle_id t' = handle_id t ->
            c <> call_CommitAndStop ->
            (runs_commit c = false ->
               flushes t' = flushes t
               /\ commits (backend t') = commits (backend t)
               /\ size (backend t') = size (backend t)
               /\ sizeInUse (backend t') = sizeInUse (backend t))
            /\ ((flushes t' = flushes t
                 /\ commits (backend t') = commits (backend t))
                \/ (flushes t' = flushes t + 1
                    /\ commits (backend t')
                       = wrap64 (commits (backend t) + 1)))
            /\ ((handle_id t' = handle_id t
                 /\ size (backend t') = size (backend t)
                 /\ sizeInUse (backend t') = sizeInUse (backend t))
                \/ (handle_id t' <> handle_id t /\ published t'
                    /\ tx t' <> tx t))
            /\ (c = call_CommitAndStop -> tx t <> None ->
                flushes t' = flushes t + 1
                /\ commits (backend t') = wrap64 (commits (backend t) + 1)
                /\ size (backend t') = size (backend t)
                /\ sizeInUse (backend t') = sizeInUse (backend t))).
  { intros E Hid Hc. unfold flushes. rewrite E.
    split; [auto|]. split; [auto|]. split; [auto|].
    intros Hcs. contradiction. }
  assert (Hbegun :
            (handle_id t' = handle_id t
             /\ size (backend t') = size (backend t)
             /\ sizeInUse (backend t') = sizeInUse (backend t))
            \/ (handle_id t' <> handle_id t /\ published t') ->
            (handle_id t' = handle_id t
             /\ size (backend t') = size (backend t)
             /\ sizeInUse (backend t') = sizeInUse (backend t))
            \/ (handle_id t' <> handle_id t /\ published t'
                /\ tx t' <> tx t)).
  { intros [A|[A B]]; [left; exact A | right; auto]. }
  destruct (is_mutation c) eqn:Hm.
  - destruct (mutation_Done c _ _ _ _ _ Hm H) as (Hb & Hid & _).
    apply Hsame; auto. intros ->. discriminate Hm.
  - destruct c; try discriminate Hm.
    + invert_invoke H. unfold Lock in E.
      destruct (locked t); [discriminate|]. inversion E. subst t'.
      apply Hsame; [reflexivity | reflexivity | discriminate].
    + invert_invoke H. destruct (Unlock_effect _ _ E) as [Hc _].
      split; [discriminate|]. split; [|split; [|discriminate]].
      * destruct Hc as [(A & B & _)|(A & B & _)]; auto.
      * apply Hbegun.
        destruct (Unlock_begun _ _ E) as [(A & B)|Hs]; [|right; exact Hs].
        left. unfold handle_id. rewrite A, B. auto.
    + invert_invoke H.
      apply Hsame; [reflexivity | reflexivity | discriminate].
    + invert_invoke H.
      apply Hsame; [reflexivity | reflexivity | discriminate].
    + invert_invoke H.
      destruct (locked_commit_effect false _ _ E) as (Hc & _).
      split; [discriminate|]. split; [|split; [|discriminate]].
      * destruct Hc as [(A & B & _)|(A & B & _)]; auto.
      * apply Hbegun. exact (locked_commit_begun false _ _ E).
    + invert_invoke H.
      destruct (locked_commit_effect true _ _ E) as (Hc & _ & Hst).
      split; [discriminate|]. split; [|split].
      * destruct Hc as [(A & B & _)|(A & B & _)]; auto.
      * apply Hbegun. exact (locked_commit_begun true _ _ E).
      * intros _ Hn. destruct (Hst eq_refl Hn) as (A & B & C).
        repeat split; auto.
        destruct Hc as [(A' & _)|(_ & B' & _)]; [lia | exact B'].
Qed.

(** [metrics_follow_flush_and_begin] at a [Commit] that flushes four
    pending mutations: the counter follows the flush, the sizes follow the
    new transaction. *)
Lemma metrics_follow_flush_and_begin_witness :
  exists t',
    invoke (@call_Commit unit)
      (set_locked (example_state 10 4 [bolt.FlushLeaves 32768 3]) false) tt
    = Done (t', tt, ret_void)
    /\ flushes t' = 1
    /\ commits (backend t') = 1
    /\ size (backend t') = 32768
    /\ handle_id t' = Some 3
    /\ ((handle_id t'
         = handle_id
             (set_locked (example_state 10 4 [bolt.FlushLeaves 32768 3])
                false)
         /\ size (backend t') = 16384 /\ sizeInUse (backend t') = 12288)
        \/ (handle_id t'
            <> handle_id
                 (set_locked (example_state 10 4 [bolt.FlushLeaves 32768 3])
                    false)
            /\ published t'
            /\ tx t'
               <> tx (set_locked
                        (example_state 10 4 [bolt.FlushLeaves 32768 3])
                        false))).
Proof.
  eexists. split; [reflexivity|].
  split; [reflexivity|]. split; [reflexivity|]. split; [reflexivity|].
  split; [reflexivity|].
  exact (proj1 (proj2 (proj2
           (metrics_follow_flush_and_begin unit call_Commit
              (set_locked (example_state 10 4 [bolt.FlushLeaves 32768 3])
                 false)
              _ tt tt ret_void eq_refl)))).
Defined.
